(** * motd-embed-api: the address resolver, the format-code parser, the
    expiring cache and the lookup that composes them

    A shallow embedding of [motd_parser.py], [server.py], [cache.py],
    [html_generator.py] and the request handler of [main.py].

    Conventions.
    - A Python [str] is a [string]; its characters are read as the code
      points U+0000..U+00FF, so the marker character U+00A7 is the single
      character [sect] below.  On these strings [str.lower], [str.replace],
      [str.rsplit], [int] (under the interpreter's default limit of 4300
      digits) and the case-insensitive character class of the tokenizer are
      modelled exactly, and every text has a UTF-8 encoding.
    - A Python call that may raise returns a [result]; exceptions are the
      constructors of [exn].
    - The resolver library, the name service, the status query and the
      document template are the fields of an environment [Env].  Code that
      reads the cache or queries a server runs in the state-and-error monad
      [M] over a [World]: the global cache, the clock and a trace of the
      effects made.
    - Clock readings and the time to live are integers, in seconds. *)

From Stdlib Require Import String Ascii List ZArith NArith Lia Bool Floats
  Sorted.
From Stdlib Require DecimalString.
Import ListNotations.
Local Set Warnings "-register-all".
Local Open Scope string_scope.
Local Open Scope list_scope.

(** ** Python builtins used by the sources *)
Module Py.

(** Exceptions the sources raise, catch or let through. *)
Inductive exn : Type :=
| ValueError (msg : string)
| AttributeError
| TypeError
| KeyError
| socket_gaierror
| socket_herror
| socket_timeout
| ConnectionRefusedError
| OSError
| OtherException (name : string).

(** [socket.gaierror], [socket.herror], [socket.timeout] and
    [ConnectionRefusedError] are subclasses of [OSError]. *)
Definition is_OSError (e : exn) : bool :=
  match e with
  | socket_gaierror | socket_herror | socket_timeout
  | ConnectionRefusedError | OSError => true
  | _ => false
  end.

Definition is_ValueError (e : exn) : bool :=
  match e with ValueError _ => true | _ => false end.

Inductive result (A : Type) : Type :=
| Ok (a : A)
| Raise (e : exn).
Arguments Ok {A} a.
Arguments Raise {A} e.

Definition rbind {A B} (r : result A) (k : A -> result B) : result B :=
  match r with Ok a => k a | Raise e => Raise e end.

(** U+00A7, the format marker character. *)
Definition sect : ascii := "167"%char.
(** U+0022, the double quote. *)
Definition dquote : ascii := "034"%char.

Definition str1 (c : ascii) : string := String c EmptyString.

(** [s.replace(old, new)] for a one-character [old]. *)
Fixpoint replace (old : ascii) (new : string) (s : string) : string :=
  match s with
  | EmptyString => EmptyString
  | String c s' =>
      if Ascii.eqb c old then new ++ replace old new s'
      else String c (replace old new s')
  end.

(** [c.lower()] on U+0000..U+00FF: A-Z and U+00C0..U+00DE except U+00D7. *)
Definition lower (c : ascii) : ascii :=
  let n := N_of_ascii c in
  if ((65 <=? n) && (n <=? 90) ||
      (192 <=? n) && (n <=? 222) && negb (n =? 215))%N
  then ascii_of_N (n + 32) else c.

(** [s.startswith(p)] *)
Definition startswith (p s : string) : bool := String.prefix p s.

(** [c in s] for a one-character [c]. *)
Fixpoint contains (c : ascii) (s : string) : bool :=
  match s with
  | EmptyString => false
  | String d s' => Ascii.eqb d c || contains c s'
  end.

(** [sep.join(l)] *)
Definition join (sep : string) (l : list string) : string :=
  String.concat sep l.

(** [x in l] for a list of strings. *)
Definition mem (x : string) (l : list string) : bool :=
  existsb (String.eqb x) l.

(** [d.get(k)] on a dict kept as an association list. *)
Fixpoint lookup {K V} (eqb : K -> K -> bool) (k : K) (d : list (K * V))
  : option V :=
  match d with
  | [] => None
  | (k', v) :: d' => if eqb k' k then Some v else lookup eqb k d'
  end.

(** The values of Python the parser of text components can meet: the JSON
    values, and an object with attributes. *)
Inductive value : Type :=
| PNone
| PBool (b : bool)
| PInt (z : Z)
| PFloat (f : float)
| PStr (s : string)
| PList (l : list value)
| PDict (d : list (string * value))
| PObj (attrs : list (string * value)).

(** [bool(v)] *)
Definition truthy (v : value) : bool :=
  match v with
  | PNone => false
  | PBool b => b
  | PInt z => negb (z =? 0)%Z
  | PFloat f => negb (PrimFloat.eqb f PrimFloat.zero)
  | PStr s => negb (s =? "")
  | PList l => match l with [] => false | _ => true end
  | PDict d => match d with [] => false | _ => true end
  | PObj _ => true
  end.

(** [iter(v)]: the items a [for] loop over [v] visits, [TypeError] when [v]
    is not iterable. *)
Definition iterate (v : value) : result (list value) :=
  match v with
  | PList l => Ok l
  | PStr s => Ok (map (fun c => PStr (str1 c)) (list_ascii_of_string s))
  | PDict d => Ok (map (fun kv => PStr (fst kv)) d)
  | _ => Raise TypeError
  end.

(** [str(z)] and the rendering of an integer in an f-string. *)
Definition str_of_int (z : Z) : string :=
  DecimalString.NilZero.string_of_int (Z.to_int z).

(** The characters [int] strips from both ends of its argument: the ASCII
    white space, U+0085 and U+00A0. *)
Definition is_space (c : ascii) : bool :=
  let n := N_of_ascii c in
  ((9 <=? n) && (n <=? 13) || (n =? 32) || (n =? 133) || (n =? 160))%N.

Definition digit_value (c : ascii) : option Z :=
  let n := N_of_ascii c in
  if ((48 <=? n) && (n <=? 57))%N then Some (Z.of_N n - 48)%Z else None.

Fixpoint lstrip (l : list ascii) : list ascii :=
  match l with
  | c :: l' => if is_space c then lstrip l' else l
  | [] => []
  end.

Definition strip (l : list ascii) : list ascii :=
  rev (lstrip (rev (lstrip l))).

(** Decimal digits, single underscores allowed between two digits only. *)
Fixpoint digits (acc : Z) (after_digit : bool) (l : list ascii) : option Z :=
  match l with
  | [] => if after_digit then Some acc else None
  | c :: l' =>
      if Ascii.eqb c "_"%char then
        if after_digit then digits acc false l' else None
      else
        match digit_value c with
        | Some d => digits (10 * acc + d)%Z true l'
        | None => None
        end
  end.

(** [sys.int_info.default_max_str_digits]: the most digits [int] converts. *)
Definition max_str_digits : Z := 4300.

Definition is_digit (c : ascii) : bool :=
  match digit_value c with Some _ => true | None => false end.

(** The digits of a text after its sign, read by [int]: a text with more
    than [max_str_digits] digits (underscores are not counted) is refused
    with [ValueError] like one that is no number. *)
Definition digits_capped (l : list ascii) : option Z :=
  if (max_str_digits <? Z.of_nat (length (filter is_digit l)))%Z then None
  else digits 0 false l.

(** [int(s)] for a [str] and the default base, under the interpreter's
    default limit on the number of digits; [None] is [ValueError]. *)
Definition py_int (s : string) : option Z :=
  match strip (list_ascii_of_string s) with
  | c :: l =>
      if Ascii.eqb c "+"%char then digits_capped l
      else if Ascii.eqb c "-"%char then option_map Z.opp (digits_capped l)
      else digits_capped (c :: l)
  | [] => None
  end.

(** [s.rsplit(sep, 1)] when [sep] occurs in [s]: the text before and after
    the last occurrence; [None] when [sep] does not occur. *)
Fixpoint rsplit1 (sep : ascii) (s : string) : option (string * string) :=
  match s with
  | EmptyString => None
  | String c s' =>
      match rsplit1 sep s' with
      | Some (h, t) => Some (String c h, t)
      | None => if Ascii.eqb c sep then Some (EmptyString, s') else None
      end
  end.

(** [sub in s] *)
Fixpoint has_substring (sub s : string) : bool :=
  String.prefix sub s ||
  match s with
  | EmptyString => false
  | String _ s' => has_substring sub s'
  end.

(** The UTF-8 bytes of one code point; [None] for a surrogate, which has no
    encoding. *)
Definition utf8_code_point (n : N) : option (list N) :=
  (if n <? 128 then Some [n]
   else if n <? 2048 then Some [192 + n / 64; 128 + n mod 64]
   else if (55296 <=? n) && (n <=? 57343) then None
   else if n <? 65536 then
     Some [224 + n / 4096; 128 + (n / 64) mod 64; 128 + n mod 64]
   else
     Some [240 + n / 262144; 128 + (n / 4096) mod 64;
           128 + (n / 64) mod 64; 128 + n mod 64])%N.

(** [s.encode("utf-8")]: [UnicodeEncodeError], a [ValueError], at the first
    surrogate. *)
Fixpoint encode_utf8 (s : string) : result (list N) :=
  match s with
  | EmptyString => Ok []
  | String c s' =>
      match utf8_code_point (N_of_ascii c) with
      | Some b => rbind (encode_utf8 s') (fun bs => Ok (b ++ bs))
      | None => Raise (ValueError "surrogates not allowed")
      end
  end.

(** [d[k]] on a value. *)
Definition subscript (v : value) (k : string) : result value :=
  match v with
  | PDict d =>
      match lookup String.eqb k d with
      | Some x => Ok x
      | None => Raise KeyError
      end
  | _ => Raise TypeError
  end.

End Py.

(** ** motd_parser.py *)
Module MotdParser.
Import Py.

Definition COLOR_CODES : list (ascii * string) :=
  [ ("0"%char, "mcformat-black");
    ("1"%char, "mcformat-dark-blue");
    ("2"%char, "mcformat-dark-green");
    ("3"%char, "mcformat-dark-aqua");
    ("4"%char, "mcformat-dark-red");
    ("5"%char, "mcformat-dark-purple");
    ("6"%char, "mcformat-gold");
    ("7"%char, "mcformat-gray");
    ("8"%char, "mcformat-dark-gray");
    ("9"%char, "mcformat-blue");
    ("a"%char, "mcformat-green");
    ("b"%char, "mcformat-aqua");
    ("c"%char, "mcformat-red");
    ("d"%char, "mcformat-light-purple");
    ("e"%char, "mcformat-yellow");
    ("f"%char, "mcformat-white") ].

Definition FORMAT_CODES : list (ascii * string) :=
  [ ("k"%char, "mcformat-obfuscated");
    ("l"%char, "mcformat-bold");
    ("m"%char, "mcformat-strikethrough");
    ("n"%char, "mcformat-underline");
    ("o"%char, "mcformat-italic");
    ("r"%char, "mcformat-reset") ].

(** The four [replace] calls of [parse_motd], in the order of the source. *)
Definition escape (motd_text : string) : string :=
  replace dquote "&quot;"
    (replace ">"%char "&gt;"
       (replace "<"%char "&lt;"
          (replace "&"%char "&amp;" motd_text))).

(** The character class [[0-9a-fk-or]]. *)
Definition code_class (c : ascii) : bool :=
  let n := N_of_ascii c in
  ((48 <=? n) && (n <=? 57) || (97 <=? n) && (n <=? 102) ||
   (107 <=? n) && (n <=? 111) || (n =? 114))%N.

(** The class under [re.IGNORECASE]: a character matches when its lowercase
    is in the class. *)
Definition matches_code (c : ascii) : bool := code_class (lower c).

(** One attempt of the pattern [§[0-9a-fk-or]] at two adjacent characters. *)
Definition matches_marker (c d : ascii) : bool :=
  Ascii.eqb c sect && matches_code d.

(** Puts a character in front of the first part of a split. *)
Definition push_front (c : ascii) (parts : list string) : list string :=
  match parts with
  | [] => [str1 c]
  | p :: ps => String c p :: ps
  end.

(** [re.split(r'(§[0-9a-fk-or])', s, flags=re.IGNORECASE)]: the text between
    the matches, found left to right without overlap, with every match kept
    as a part of its own (the pattern is one capture group). *)
Fixpoint re_split (s : string) : list string :=
  match s with
  | EmptyString => [EmptyString]
  | String c rest =>
      match rest with
      | String d rest' =>
          if matches_marker c d
          then EmptyString :: String c (str1 d) :: re_split rest'
          else push_front c (re_split rest)
      | EmptyString => push_front c (re_split rest)
      end
  end.

(** The f-string of a span element with the class attribute [cls]. *)
Definition span (cls body : string) : string :=
  "<span class=" ++ str1 dquote ++ cls ++ str1 dquote ++ ">" ++ body
    ++ "</span>".

(** The two variables the loop of [parse_motd] updates. *)
Record loop_state : Type := mk_state {
  html_parts : list string;
  current_classes : list string
}.

Definition init_state : loop_state := mk_state [] [].

Definition append_html (st : loop_state) (h : string) : list string :=
  html_parts st ++ [h].

(** One iteration of [for part in parts]. *)
Definition loop_body (st : loop_state) (part : string) : loop_state :=
  if part =? "" then st
  else if startswith (str1 sect) part && (String.length part =? 2)%nat then
    match String.get 1 part with
    | None => st
    | Some c1 =>
        let code := lower c1 in
        let shown := span "mcformat-code" (String sect (str1 c1)) in
        if Ascii.eqb code "r"%char then
          mk_state (append_html st (span "mcformat-code" (String sect "r")))
                   []
        else
          match lookup Ascii.eqb code COLOR_CODES with
          | Some cls =>
              mk_state (append_html st shown)
                (filter (fun c => negb (mem c (map snd COLOR_CODES)))
                        (current_classes st) ++ [cls])
          | None =>
              match lookup Ascii.eqb code FORMAT_CODES with
              | Some cls =>
                  mk_state (append_html st shown)
                    (if negb (mem cls (current_classes st))
                     then current_classes st ++ [cls]
                     else current_classes st)
              | None => st
              end
          end
    end
  else
    match current_classes st with
    | _ :: _ =>
        let classes_str := join " " ("mcformat" :: current_classes st) in
        mk_state (append_html st (span classes_str part))
                 (current_classes st)
    | [] =>
        mk_state (append_html st (span "mcformat mcformat-reset" part))
                 (current_classes st)
    end.

Definition run_loop (parts : list string) : loop_state :=
  fold_left loop_body parts init_state.

Definition parse_motd (motd_text : string) : string :=
  if motd_text =? "" then ""
  else
    let parts := re_split (escape motd_text) in
    join "" (html_parts (run_loop parts)).

(** [parse_motd] applied to any value: a falsy argument returns at the first
    test, another value that is not a [str] has no [replace] method. *)
Definition parse_motd_value (v : value) : result string :=
  match v with
  | PStr s => Ok (parse_motd s)
  | _ => if truthy v then Raise AttributeError else Ok ""
  end.

(** The body of the loop over [motd_data['extra']]. *)
Definition extra_item (result : list string) (item : value)
  : Py.result (list string) :=
  match item with
  | PDict d =>
      let item_text :=
        match lookup String.eqb "text" d with
        | Some v => v
        | None => PStr ""
        end in
      if truthy item_text
      then rbind (parse_motd_value item_text) (fun h => Ok (result ++ [h]))
      else Ok result
  | PStr s => Ok (result ++ [parse_motd s])
  | _ => Ok result
  end.

Fixpoint extra_loop (result : list string) (items : list value)
  : Py.result (list string) :=
  match items with
  | [] => Ok result
  | item :: items' =>
      rbind (extra_item result item) (fun r => extra_loop r items')
  end.

Definition parse_motd_json (motd_data : value) : result string :=
  match motd_data with
  | PStr s => Ok (parse_motd s)
  | PDict d =>
      rbind
        (match lookup String.eqb "text" d with
         | Some text =>
             if truthy text
             then rbind (parse_motd_value text) (fun h => Ok [h])
             else Ok []
         | None => Ok []
         end)
        (fun result =>
           rbind
             (match lookup String.eqb "extra" d with
              | Some extra =>
                  rbind (iterate extra) (extra_loop result)
              | None => Ok result
              end)
             (fun result => Ok (join "" result)))
  | _ => Ok ""
  end.

End MotdParser.


(** ** html_generator.py *)
Module HtmlGenerator.
Import Py.

Definition validate_favicon (favicon : string) : bool :=
  if favicon =? "" then false
  else if negb (startswith "data:" favicon) then false
  else
    let allowed_types :=
      [ "data:image/png"; "data:image/jpeg"; "data:image/jpg";
        "data:image/gif"; "data:image/webp" ] in
    if negb (existsb (fun allowed_type => startswith allowed_type favicon)
                     allowed_types) then false
    else if negb (has_substring "base64," favicon) then false
    else if (150000 <? Z.of_nat (String.length favicon))%Z then false
    else true.

(** [generate_embed_html], with the text of the document template taken as
    the function [template] of the four strings it substitutes: the escaped
    server name, the base URL, the icon source and the MOTD markup. *)
Definition generate_embed_html
  (template : string -> string -> string -> string -> string)
  (server_name motd_html : string) (favicon : value) (base_url : string)
  : result string :=
  rbind
    (if truthy favicon then
       match favicon with
       | PStr f =>
           if validate_favicon f then Ok f
           else Ok (base_url ++ "/unknown_server.jpg")%string
       | _ => Raise AttributeError
       end
     else Ok (base_url ++ "/unknown_server.jpg")%string)
    (fun icon_src =>
       let safe_server_name :=
         replace ">"%char "&gt;"
           (replace "<"%char "&lt;"
              (replace "&"%char "&amp;" server_name)) in
       Ok (template safe_server_name base_url icon_src
             (if motd_html =? "" then
                MotdParser.span "mcformat mcformat-reset" "No MOTD"
              else motd_html))).

End HtmlGenerator.

(** ** The bounded expiring store behind the cache (cachetools.TTLCache) *)
Module Cachetools.
Import Py.

Section TTLCache.
Context {V : Type}.

(** Modelled from the spec: the CacheEntry of the bounded store, a key, a
    value and the time at which it expires.  The store itself is the library
    class cachetools.TTLCache, which is not among the sources. *)
Record entry : Type := mk_entry {
  e_key : string;
  e_value : V;
  expires_at : Z
}.

(** Modelled from the spec: the bounded store with its two construction
    parameters; [entries] is the ordering structure for LRU, from the least
    to the most recently used entry. *)
Record TTLCache : Type := mk_cache {
  maxsize : nat;
  ttl : Z;
  entries : list entry
}.

Definition new (maxsize : nat) (ttl : Z) : TTLCache :=
  mk_cache maxsize ttl [].

(** Modelled from the spec: an entry is stale at the clock reading [now] once
    [now] has reached its expiry time. *)
Definition expired (now : Z) (e : entry) : bool :=
  negb (now <? expires_at e)%Z.

Definition has_key (k : string) (e : entry) : bool := e_key e =? k.

Definition find_entry (k : string) (l : list entry) : option entry :=
  find (has_key k) l.

Definition remove_key (k : string) (l : list entry) : list entry :=
  filter (fun e => negb (has_key k e)) l.

(** Modelled from the spec: the entries that have not expired, in LRU
    order; what a lazy purge keeps. *)
Definition live (now : Z) (l : list entry) : list entry :=
  filter (fun e => negb (expired now e)) l.

(** Modelled from the spec: [get] treats a stale entry as absent, and a hit
    makes the entry the most recently used one. *)
Definition get (k : string) (now : Z) (c : TTLCache)
  : option V * TTLCache :=
  match find_entry k (entries c) with
  | Some e =>
      if expired now e then (None, c)
      else (Some (e_value e),
            mk_cache (maxsize c) (ttl c) (remove_key k (entries c) ++ [e]))
  | None => (None, c)
  end.

(** Modelled from the spec: dropping least recently used entries, from the
    front, until one more entry fits. *)
Definition make_room (maxsize : nat) (l : list entry) : list entry :=
  skipn (S (length l) - maxsize) l.

(** Modelled from the spec: [set] inserts or refreshes a key; stale entries
    are purged first, and when inserting a new key would exceed the capacity
    the least recently used entries are evicted, whatever time they have
    left.  The entry set becomes the most recently used one. *)
Definition set (k : string) (v : V) (now : Z) (c : TTLCache) : TTLCache :=
  let l := live now (entries c) in
  let e := mk_entry k v (now + ttl c) in
  match find_entry k l with
  | Some _ => mk_cache (maxsize c) (ttl c) (remove_key k l ++ [e])
  | None => mk_cache (maxsize c) (ttl c) (make_room (maxsize c) l ++ [e])
  end.

(** Modelled from the spec: [clear] empties the store. *)
Definition clear (c : TTLCache) : TTLCache :=
  mk_cache (maxsize c) (ttl c) [].

(** Modelled from the spec: [size] counts the entries that have not
    expired. *)
Definition size (now : Z) (c : TTLCache) : nat :=
  length (live now (entries c)).

End TTLCache.

Arguments entry V : clear implicits.
Arguments TTLCache V : clear implicits.

End Cachetools.

(** ** The world the lookup runs in *)
Module Runtime.
Import Py.

(** An [ipaddress] address object, seen through the five properties the
    resolver reads. *)
Record IPAddress : Type := mk_ip {
  is_private : bool;
  is_loopback : bool;
  is_link_local : bool;
  is_reserved : bool;
  is_multicast : bool
}.

(** The status response of mcstatus, seen through what [get_server_info]
    reads: [version] is the version name, [players] the pair online, max. *)
Record JavaStatusResponse : Type := mk_status {
  description : value;
  version : option string;
  players : option (Z * Z);
  icon : option string
}.

(** The collaborators outside the repository. *)
Record Env : Type := mk_env {
  (** [ipaddress.ip_address] *)
  ip_address : string -> result IPAddress;
  (** [socket.gethostbyname] *)
  gethostbyname : string -> result string;
  (** [JavaServer(host, port).status()] *)
  server_status : string -> Z -> result JavaStatusResponse;
  (** the time a status query takes *)
  elapsed : string -> Z -> nat;
  (** [str] on a value that is not a str, None, a bool or an int *)
  repr : value -> string;
  (** the text of the document template of [generate_embed_html] *)
  template : string -> string -> string -> string -> string
}.

(** What the trace records: it is ghost state, kept to state which effects a
    run had. *)
Inductive event : Type :=
| CacheGet (key : string)
| CacheSet (key : string) (v : value)
| FetchCall (ip : string)
| StatusQuery (host : string) (port : Z).

Record World : Type := mk_world {
  server_cache : Cachetools.TTLCache value;
  clock : Z;
  trace : list event
}.

(** State and exceptions: an exception leaves the effects made so far. *)
Definition M (A : Type) : Type := World -> result A * World.

Definition ret {A} (a : A) : M A := fun w => (Ok a, w).

Definition bind {A B} (m : M A) (k : A -> M B) : M B :=
  fun w =>
    match m w with
    | (Ok a, w') => k a w'
    | (Raise e, w') => (Raise e, w')
    end.

Definition raise {A} (e : exn) : M A := fun w => (Raise e, w).

Definition lift {A} (r : result A) : M A := fun w => (r, w).

(** [try: m  except <classes>: handler] *)
Definition try_except {A} (m : M A) (catches : exn -> bool)
  (handler : exn -> M A) : M A :=
  fun w =>
    match m w with
    | (Ok a, w') => (Ok a, w')
    | (Raise e, w') => if catches e then handler e w' else (Raise e, w')
    end.

Definition emit (ev : event) : M unit :=
  fun w =>
    (Ok tt, mk_world (server_cache w) (clock w) (trace w ++ [ev])).

Declare Scope monad_scope.
Delimit Scope monad_scope with monad.
Notation "x <- m ;; k" := (bind m (fun x => k))
  (at level 61, m at next level, right associativity) : monad_scope.
Notation "' pat <- m ;; k" := (bind m (fun x => match x with pat => k end))
  (at level 61, pat pattern, m at next level, right associativity)
  : monad_scope.
Notation "m ;;; k" := (bind m (fun _ => k))
  (at level 61, right associativity) : monad_scope.

End Runtime.

(** ** server.py *)
Module Server.
Import Py Runtime.
Local Open Scope monad_scope.

Section WithEnv.
Variable E : Env.

Definition is_private_ip (hostname : string) : result bool :=
  let flags (ip : IPAddress) :=
    is_private ip || is_loopback ip || is_link_local ip ||
    is_reserved ip || is_multicast ip in
  match ip_address E hostname with
  | Ok ip => Ok (flags ip)
  | Raise e =>
      if is_ValueError e then
        match rbind (gethostbyname E hostname) (ip_address E) with
        | Ok ip => Ok (flags ip)
        | Raise e' =>
            match e' with
            | socket_gaierror | socket_herror =>
                Raise (ValueError ("Cannot resolve hostname: " ++ hostname))
            | _ => Raise e'
            end
        end
      else Raise e
  end.

Definition blocked_ports : list Z :=
  [20; 21; 22; 23; 25; 80; 443; 110; 143; 3306; 5432; 6379; 27017]%Z.

Definition validate_server_address (hostname : string) (port : Z)
  : result unit :=
  if negb ((1 <=? port) && (port <=? 65535))%Z then
    Raise (ValueError ("Port must be between 1 and 65535, got "
                         ++ str_of_int port))
  else if existsb (Z.eqb port) blocked_ports then
    Raise (ValueError ("Port " ++ str_of_int port
                         ++ " is not allowed for security reasons"))
  else
    rbind (is_private_ip hostname) (fun private =>
      if private then
        Raise (ValueError
                 "Access to private/internal IP addresses is not allowed")
      else Ok tt).

Definition parse_server_address (ip : string) : result (string * Z) :=
  rbind
    (if contains ":"%char ip then
       match rsplit1 ":"%char ip with
       | Some (host, port_str) =>
           match py_int port_str with
           | Some port => Ok (host, port)
           | None => Raise (ValueError ("Invalid port: " ++ port_str))
           end
       | None => Raise (ValueError "not enough values to unpack")
       end
     else Ok (ip, 25565%Z))
    (fun hp =>
       rbind (validate_server_address (fst hp) (snd hp)) (fun _ => Ok hp)).

(** [JavaServer(host, port).status()]: the one place that talks to the
    remote server. *)
Definition query_status (host : string) (port : Z) : M JavaStatusResponse :=
  fun w =>
    (server_status E host port,
     mk_world (server_cache w)
              (clock w + Z.of_nat (elapsed E host port))
              (trace w ++ [StatusQuery host port])).

Definition fetch_server_status (ip : string) : M (option JavaStatusResponse) :=
  try_except
    ('(host, port) <- lift (parse_server_address ip) ;;
     status <- query_status host port ;;
     ret (Some status))
    (fun e => is_OSError e || is_ValueError e)
    (fun _ => ret None).

(** [str(v)] *)
Definition py_str (v : value) : string :=
  match v with
  | PStr s => s
  | PNone => "None"
  | PBool true => "True"
  | PBool false => "False"
  | PInt z => str_of_int z
  | _ => repr E v
  end.

(** The generator joined for the extra list of a description. *)
Definition extra_text (extra : value) : result string :=
  rbind (iterate extra) (fun items =>
    Ok (join ""
          (map (fun item =>
                  match item with
                  | PDict d =>
                      py_str (match lookup String.eqb "text" d with
                              | Some t => t
                              | None => PStr ""
                              end)
                  | _ => py_str item
                  end) items))).

(** The text [get_server_info] extracts from [status.description], before
    the fallbacks for an empty text. *)
Definition description_text (description : value) : result string :=
  match description with
  | PStr s => Ok s
  | PObj attrs =>
      match lookup String.eqb "text" attrs with
      | Some text =>
          let motd_text := if truthy text then py_str text else "" in
          match lookup String.eqb "extra" attrs with
          | Some extra =>
              if truthy extra
              then rbind (extra_text extra)
                         (fun x => Ok (motd_text ++ x)%string)
              else Ok motd_text
          | None => Ok motd_text
          end
      | None => Ok ""
      end
  | PDict d =>
      let motd_text :=
        match lookup String.eqb "text" d with
        | Some text => py_str text
        | None => ""
        end in
      match lookup String.eqb "extra" d with
      | Some extra =>
          rbind (extra_text extra) (fun x => Ok (motd_text ++ x)%string)
      | None => Ok motd_text
      end
  | _ => Ok ""
  end.

(** The dict returned for a server that gave no status. *)
Definition offline_info (ip : string) : value :=
  PDict [ ("online", PBool false);
          ("motd", PStr "Server Offline");
          ("server_name", PStr ip);
          ("players_online", PInt 0);
          ("players_max", PInt 0);
          ("version", PStr "Unknown");
          ("favicon", PNone) ].

Definition get_server_info (ip : string) : M value :=
  status <- fetch_server_status ip ;;
  match status with
  | None => ret (offline_info ip)
  | Some status =>
      motd_text <- lift (description_text (description status)) ;;
      let motd_text :=
        if motd_text =? "" then
          if truthy (description status) then py_str (description status)
          else "No MOTD"
        else motd_text in
      let server_name :=
        match version status with Some name => name | None => ip end in
      ret (PDict
             [ ("online", PBool true);
               ("motd", PStr (if motd_text =? "" then "No MOTD"
                              else motd_text));
               ("server_name", PStr server_name);
               ("players_online",
                PInt (match players status with
                      | Some p => fst p
                      | None => 0%Z
                      end));
               ("players_max",
                PInt (match players status with
                      | Some p => snd p
                      | None => 0%Z
                      end));
               ("version",
                PStr (match version status with
                      | Some name => name
                      | None => "Unknown"
                      end));
               ("favicon",
                match icon status with
                | Some i => PStr i
                | None => PNone
                end) ])
  end.

End WithEnv.
End Server.

(** ** cache.py *)
Module Cache.
Import Py Runtime.
Local Open Scope monad_scope.

(** [ThreadSafeTTLCache]: every method holds the lock for its whole body, so
    a method is one atomic step on the store; [now] is the reading of the
    store's timer during the call. *)
Definition ThreadSafeTTLCache : Type := Cachetools.TTLCache value.

Definition init (maxsize : nat) (ttl_seconds : Z) : ThreadSafeTTLCache :=
  Cachetools.new maxsize ttl_seconds.

(** [get]: the cached value, [None] when not found or expired. *)
Definition get (self : ThreadSafeTTLCache) (key : string) (now : Z)
  : value * ThreadSafeTTLCache :=
  match Cachetools.get key now self with
  | (Some v, self') => (v, self')
  | (None, self') => (PNone, self')
  end.

Definition set (self : ThreadSafeTTLCache) (key : string) (v : value)
  (now : Z) : ThreadSafeTTLCache :=
  Cachetools.set key v now self.

Definition clear (self : ThreadSafeTTLCache) : ThreadSafeTTLCache :=
  Cachetools.clear self.

Definition size (self : ThreadSafeTTLCache) (now : Z) : nat :=
  Cachetools.size now self.

(** The global cache instance: at most 1000 servers, 30 seconds to live. *)
Definition _server_cache : ThreadSafeTTLCache := init 1000 30.

(** [_server_cache.get(key)] and [_server_cache.set(key, value)] on the
    global instance held by the world. *)
Definition server_cache_get (key : string) : M value :=
  fun w =>
    let (v, c) := get (server_cache w) key (clock w) in
    (Ok v, mk_world c (clock w) (trace w ++ [CacheGet key])).

Definition server_cache_set (key : string) (v : value) : M unit :=
  fun w =>
    (Ok tt,
     mk_world (set (server_cache w) key v (clock w)) (clock w)
              (trace w ++ [CacheSet key v])).

Definition get_cached_server_info (ip : string)
  (fetch_func : string -> M value) : M value :=
  cached <- server_cache_get ip ;;
  match cached with
  | PNone =>
      info <- (emit (FetchCall ip) ;;; fetch_func ip) ;;
      server_cache_set ip info ;;;
      ret info
  | _ => ret cached
  end.

End Cache.

(** ** main.py *)
Module Main.
Import Py Runtime.
Local Open Scope monad_scope.

(** What the handler hands back to the framework. *)
Inductive response : Type :=
| HTMLResponse (content : string)
| HTTPException (status_code : Z) (detail : string).

(** [HTMLResponse(content=html)]: the response encodes its body when it is
    built, inside the [try] block, so a page that cannot be encoded is
    answered by the first [except] clause. *)
Definition html_response (html : string) : result response :=
  rbind (encode_utf8 html) (fun _ => Ok (HTMLResponse html)).

(** The body of the [try] block of the handler. *)
Definition embed_body (E : Env) (ip : string) : M response :=
  server_info <-
    Cache.get_cached_server_info ip (Server.get_server_info E) ;;
  motd <- lift (subscript server_info "motd") ;;
  motd_html <- lift (MotdParser.parse_motd_value motd) ;;
  favicon <- lift (match server_info with
                   | PDict d =>
                       Ok (match lookup String.eqb "favicon" d with
                           | Some f => f
                           | None => PNone
                           end)
                   | _ => Raise AttributeError
                   end) ;;
  html <- lift (HtmlGenerator.generate_embed_html (template E)
                  ip motd_html favicon "/static") ;;
  lift (html_response html).

(** The two [except] clauses of the handler. *)
Definition on_exception (e : exn) : M response :=
  match e with
  | ValueError msg => ret (HTTPException 400 msg)
  | _ => ret (HTTPException 500 "Internal server error")
  end.

(** The handler of [/v1/server/{ip}/embed], without the rate limiter and the
    logging around it. *)
Definition get_server_embed (E : Env) (ip : string) : M response :=
  try_except (embed_body E ip) (fun _ => true) on_exception.

End Main.

(** ** A small environment to evaluate the lookup in *)
Module Demo.
Import Py Runtime.

Definition public_ip : IPAddress := mk_ip false false false false false.
Definition loopback_ip : IPAddress := mk_ip true true false false false.
Definition private_ip : IPAddress := mk_ip true false false false false.

Definition sample_status : JavaStatusResponse :=
  mk_status (PStr "A Minecraft Server") (Some "1.20.4") (Some (3, 20)%Z)
            None.

(** One public host that answers on the default port, one that times out,
    one host of a private network; other names do not resolve and every
    other query is refused. *)
Definition env : Env :=
  mk_env
    (fun s =>
       if s =? "93.184.216.34" then Ok public_ip
       else if s =? "127.0.0.1" then Ok loopback_ip
       else if s =? "10.0.0.5" then Ok private_ip
       else Raise (ValueError "does not appear to be an IPv4 or IPv6 address"))
    (fun s =>
       if s =? "mc.example.org" then Ok "93.184.216.34"
       else if s =? "slow.example.org" then Ok "93.184.216.34"
       else if s =? "intranet.example.org" then Ok "10.0.0.5"
       else Raise socket_gaierror)
    (fun host port =>
       if (host =? "mc.example.org") && (port =? 25565)%Z
       then Ok sample_status
       else if host =? "slow.example.org" then Raise socket_timeout
       else Raise ConnectionRefusedError)
    (fun _ _ => 1%nat)
    (fun _ => "<object>")
    (fun name base icon motd => (name ++ " " ++ icon ++ " " ++ motd)%string).

(** The world at process start: the empty cache, the clock at 0. *)
Definition start : World := mk_world Cache._server_cache 0 [].

End Demo.

(** ** Vocabulary for the parser *)
Module MotdParserSpec.
Import Py MotdParser.

(** A marker as the tests write it: the marker character and a code. *)
Definition marker (code : string) : string := String sect code.

(** What [escape] does to one character. *)
Definition escape_char (c : ascii) : string :=
  if Ascii.eqb c "&"%char then "&amp;"
  else if Ascii.eqb c "<"%char then "&lt;"
  else if Ascii.eqb c ">"%char then "&gt;"
  else if Ascii.eqb c dquote then "&quot;"
  else str1 c.

(** The four characters [escape] rewrites. *)
Definition reserved (c : ascii) : bool :=
  Ascii.eqb c "&"%char || Ascii.eqb c "<"%char || Ascii.eqb c ">"%char
  || Ascii.eqb c dquote.

(** A part that is one match of the pattern of [re_split]. *)
Definition is_marker_part (p : string) : bool :=
  match p with
  | String c (String d EmptyString) => matches_marker c d
  | _ => false
  end.

(** The test the loop of [parse_motd] applies to a part. *)
Definition looks_like_code (p : string) : bool :=
  startswith (str1 sect) p && (String.length p =? 2)%nat.

Definition is_color (cls : string) : bool := mem cls (map snd COLOR_CODES).

(** The class attribute the loop gives a text part. *)
Definition class_attr (classes : list string) : string :=
  match classes with
  | [] => "mcformat mcformat-reset"
  | _ :: _ => join " " ("mcformat" :: classes)
  end.

(** A code of the style set: a key of [FORMAT_CODES] other than the reset
    code. *)
Definition style_code (c : ascii) (cls : string) : Prop :=
  lookup Ascii.eqb (lower c) FORMAT_CODES = Some cls /\ lower c <> "r"%char.

Definition color_code (c : ascii) (cls : string) : Prop :=
  lookup Ascii.eqb (lower c) COLOR_CODES = Some cls.

(** What one iteration can do to the active classes. *)
Inductive class_step (cur : list string) : list string -> Prop :=
| step_keep : class_step cur cur
| step_reset : class_step cur []
| step_color cls :
    is_color cls = true ->
    class_step cur (filter (fun x => negb (is_color x)) cur ++ [cls])
| step_style cls :
    is_color cls = false -> mem cls cur = false ->
    class_step cur (cur ++ [cls]).

Definition colors_of (classes : list string) : list string :=
  filter is_color classes.

(** Text parts and marker parts alternate, text parts first and last. *)
Fixpoint alternates (parts : list string) : Prop :=
  match parts with
  | [] => False
  | t :: rest =>
      is_marker_part t = false /\
      match rest with
      | [] => True
      | m :: rest' => is_marker_part m = true /\ alternates rest'
      end
  end.

(** The five style classes in the order the specification calls
    canonical. *)
Definition STYLE_ORDER : list string :=
  [ "mcformat-bold"; "mcformat-strikethrough"; "mcformat-underline";
    "mcformat-italic"; "mcformat-obfuscated" ].

(** The class attribute as the specification words it: the base class, the
    active color class if any, then the active style classes in canonical
    order; the default reset class when no class is active. *)
Definition spec_class_attr (classes : list string) : string :=
  match classes with
  | [] => "mcformat mcformat-reset"
  | _ :: _ =>
      join " " ("mcformat" :: colors_of classes
                  ++ filter (fun cls => mem cls classes) STYLE_ORDER)
  end.

Definition isinstance_str (v : value) : bool :=
  match v with PStr _ => true | _ => false end.

Definition isinstance_dict (v : value) : bool :=
  match v with PDict _ => true | _ => false end.

End MotdParserSpec.

(** ** Vocabulary for the resolver *)
Module ServerSpec.
Import Py Runtime Server.

(** The characters a text accepted by [py_int] is made of. *)
Definition int_char (c : ascii) : bool :=
  is_space c || Ascii.eqb c "+" || Ascii.eqb c "-" || Ascii.eqb c "_"
  || match digit_value c with Some _ => true | None => false end.

(** The message of the blocked-port error. *)
Definition blocked_port_message (port : Z) : string :=
  "Port " ++ str_of_int port ++ " is not allowed for security reasons".

End ServerSpec.

(** ** Vocabulary for the lookup *)
Module LookupSpec.
Import Py Runtime Server.

(** The exceptions [fetch_server_status] turns into a missing status. *)
Definition swallowed (e : exn) : bool := is_OSError e || is_ValueError e.

(** The world after one status query. *)
Definition after_query (E : Env) (host : string) (port : Z) (w : World)
  : World :=
  mk_world (server_cache w) (clock w + Z.of_nat (elapsed E host port))
           (trace w ++ [StatusQuery host port]).

(** The world after a cache miss, a fetch that ended in the world [w'] and
    the store of its result. *)
Definition after_store (ip : string) (info : value) (w' : World) : World :=
  mk_world (Cache.set (server_cache w') ip info (clock w')) (clock w')
           (trace w' ++ [CacheSet ip info]).

Definition after_get (ip : string) (w : World) : World :=
  mk_world (snd (Cache.get (server_cache w) ip (clock w))) (clock w)
           (trace w ++ [CacheGet ip]).

(** The server name as [generate_embed_html] escapes it. *)
Definition safe_name (server_name : string) : string :=
  replace ">"%char "&gt;"
    (replace "<"%char "&lt;" (replace "&"%char "&amp;" server_name)).

(** The page for a server that gave no status. *)
Definition offline_page (E : Env) (ip : string) : string :=
  template E (safe_name ip) "/static" "/static/unknown_server.jpg"
    (MotdParser.span "mcformat mcformat-reset" "Server Offline").

(** C1 as the specification words it: a lookup of an address the resolver
    rejects adds nothing to the trace, so it reads no cache, calls no fetch
    and writes no cache, and it raises the client-input error. *)
Definition claimed_short_circuit (E : Env) (ip : string) (w : World) : Prop :=
  exists msg w',
    Cache.get_cached_server_info ip (Server.get_server_info E) w
    = (Raise (ValueError msg), w')
    /\ trace w' = trace w.

End LookupSpec.

(** ** Vocabulary for the cache *)
Module CacheSpec.
Import Py Cachetools.

Section Store.
Context {V : Type}.

Definition keys (l : list (entry V)) : list string := map e_key l.

(** The store holds no more entries than its capacity. *)
Definition fits (c : TTLCache V) : Prop :=
  (length (entries c) <= maxsize c)%nat.

End Store.

(** A call on the global instance, with the reading of the timer during the
    call. *)
Inductive call : Type :=
| CallGet (key : string) (now : Z)
| CallSet (key : string) (v : value) (now : Z)
| CallClear
| CallSize (now : Z).

Definition apply_call (self : Cache.ThreadSafeTTLCache) (o : call)
  : Cache.ThreadSafeTTLCache :=
  match o with
  | CallGet key now => snd (Cache.get self key now)
  | CallSet key v now => Cache.set self key v now
  | CallClear => Cache.clear self
  | CallSize _ => self
  end.

(** The instance after a sequence of calls, from process start. *)
Definition after_calls (calls : list call) : Cache.ThreadSafeTTLCache :=
  fold_left apply_call calls Cache._server_cache.

(** Whether the call [o], made on the store [self], uses the key [k]: a
    [set] of the key, or a [get] that finds it alive. *)
Definition uses (self : Cache.ThreadSafeTTLCache) (o : call) (k : string)
  : bool :=
  match o with
  | CallGet key now =>
      String.eqb key k
      && match fst (Cachetools.get key now self) with
         | Some _ => true
         | None => false
         end
  | CallSet key _ _ => String.eqb key k
  | CallClear | CallSize _ => false
  end.

(** One call in the bookkeeping of [last_use]: the store, the number of
    calls made, and the position of the last call that used the key. *)
Definition track (k : string)
  (st : Cache.ThreadSafeTTLCache * nat * nat) (o : call)
  : Cache.ThreadSafeTTLCache * nat * nat :=
  let '(self, n, last) := st in
  (apply_call self o, S n, if uses self o k then S n else last).

(** The position, counted from 1, of the last of the calls that used the
    key [k], from process start; 0 when no call used it. *)
Definition last_use (calls : list call) (k : string) : nat :=
  snd (fold_left (track k) calls (Cache._server_cache, 0%nat, 0%nat)).

(** After the calls, the entry [e1] is less recently used than [e2]. *)
Definition used_before (calls : list call) (e1 e2 : entry value) : Prop :=
  (last_use calls (e_key e1) < last_use calls (e_key e2))%nat.

(** A thousand keys stored, the first of them one second before the
    others, and then read again. *)
Definition fill_calls : list call :=
  map (fun i =>
         CallSet (str_of_int (Z.of_nat i)) (PInt (Z.of_nat i))
                 (if (i =? 0)%nat then 0%Z else 1%Z))
      (seq 0 1000)
  ++ [CallGet "0" 2].

End CacheSpec.

(** ** Vocabulary for the further properties *)
Module ExtrasSpec.
Import Py MotdParser MotdParserSpec Runtime Server LookupSpec.

(** A class the loop can make active: one of the sixteen color classes or
    one of the five style classes. *)
Definition known_class (cls : string) : Prop :=
  is_color cls = true \/ In cls STYLE_ORDER.

(** The text an entry of an extra list contributes to [parse_motd_json]: a
    str itself, the str under the key text of a dict, nothing for a dict
    without that key and for a value that is neither. *)
Inductive leaf_text : value -> string -> Prop :=
| leaf_str s : leaf_text (PStr s) s
| leaf_dict d s :
    lookup String.eqb "text" d = Some (PStr s) -> leaf_text (PDict d) s
| leaf_dict_bare d :
    lookup String.eqb "text" d = None -> leaf_text (PDict d) ""
| leaf_other v :
    isinstance_str v = false -> isinstance_dict v = false ->
    leaf_text v "".

(** The disjunction [is_private_ip] returns. *)
Definition flagged (a : IPAddress) : bool :=
  is_private a || is_loopback a || is_link_local a || is_reserved a
  || is_multicast a.

(** The address [is_private_ip] examines for a host: the host read as an
    address literal, or the literal the name service gives for it. *)
Definition resolves_to (E : Env) (host : string) (a : IPAddress) : Prop :=
  ip_address E host = Ok a
  \/ exists m r,
       ip_address E host = Raise (ValueError m)
       /\ gethostbyname E host = Ok r /\ ip_address E r = Ok a.

(** A port that passes the two port tests of [validate_server_address]. *)
Definition port_allowed (port : Z) : Prop :=
  (1 <= port <= 65535)%Z /\ ~ In port blocked_ports.

(** The list [allowed_types] of [validate_favicon]. *)
Definition allowed_types : list string :=
  [ "data:image/png"; "data:image/jpeg"; "data:image/jpg";
    "data:image/gif"; "data:image/webp" ].

(** The fallback icon of [generate_embed_html]. *)
Definition fallback_icon (base_url : string) : string :=
  base_url ++ "/unknown_server.jpg".

(** The dict [get_server_info] returns: its seven keys in order, a str that
    is not empty under motd, a str or None under favicon. *)
Definition is_info (info : value) : Prop :=
  exists online motd name players_online players_max version favicon,
    info = PDict [ ("online", PBool online); ("motd", PStr motd);
                   ("server_name", PStr name);
                   ("players_online", PInt players_online);
                   ("players_max", PInt players_max);
                   ("version", PStr version); ("favicon", favicon) ]
    /\ (motd =? "") = false
    /\ (favicon = PNone \/ exists i, favicon = PStr i).

(** The world in which [get_cached_server_info] calls the fetch function:
    after the cache get, with the call recorded. *)
Definition before_fetch (ip : string) (w : World) : World :=
  mk_world (server_cache (after_get ip w)) (clock w)
           (trace w ++ [CacheGet ip] ++ [FetchCall ip]).

(** The markup [generate_embed_html] puts in the page. *)
Definition page_body (motd_html : string) : string :=
  if motd_html =? "" then span "mcformat mcformat-reset" "No MOTD"
  else motd_html.

(** An environment in which every status query fails with an exception
    that is neither an [OSError] nor a [ValueError]. *)
Definition broken_env : Env :=
  mk_env (ip_address Demo.env) (gethostbyname Demo.env)
         (fun _ _ => Raise KeyError)
         (elapsed Demo.env) (repr Demo.env) (template Demo.env).

(** The info dict a fresh fetch in the world [w] returns, None when the
    fetch raises. *)
Definition fst_info (E : Env) (ip : string) (w : World) : value :=
  match get_server_info E ip (before_fetch ip w) with
  | (Ok info, _) => info
  | (Raise _, _) => PNone
  end.

(** A text of [n] copies of a character. *)
Fixpoint filler (c : ascii) (n : nat) : string :=
  match n with
  | O => EmptyString
  | S n' => String c (filler c n')
  end.

End ExtrasSpec.

(** * Properties *)

(** ** Facts about the builtins *)
Module PyFacts.
Import Py.

Lemma string_app_assoc (a b c : string) :
  ((a ++ b) ++ c)%string = (a ++ (b ++ c))%string.
Proof. induction a as [|x a IH]; simpl; [reflexivity | now rewrite IH]. Qed.

Lemma string_app_nil_r (a : string) : (a ++ "")%string = a.
Proof. induction a as [|x a IH]; simpl; [reflexivity | now rewrite IH]. Qed.

Lemma length_append (a b : string) :
  String.length (a ++ b) = String.length a + String.length b.
Proof. induction a; simpl; congruence. Qed.

Lemma replace_app old new s t :
  replace old new (s ++ t) = (replace old new s ++ replace old new t)%string.
Proof.
  induction s as [|c s IH]; simpl; [reflexivity|].
  destruct (Ascii.eqb c old); simpl; rewrite IH.
  - now rewrite string_app_assoc.
  - reflexivity.
Qed.

Lemma join_empty_cons x l : join "" (x :: l) = (x ++ join "" l)%string.
Proof.
  destruct l as [|y l]; simpl; [now rewrite string_app_nil_r | reflexivity].
Qed.

Lemma join_empty_app l1 l2 :
  join "" (l1 ++ l2) = (join "" l1 ++ join "" l2)%string.
Proof.
  induction l1 as [|x l1 IH]; [reflexivity|].
  change ((x :: l1) ++ l2) with (x :: (l1 ++ l2)).
  rewrite !join_empty_cons, IH. now rewrite string_app_assoc.
Qed.

(** Case analysis over the 256 characters. *)
Ltac each_char c := destruct c as [[] [] [] [] [] [] [] []].

Lemma mem_In x l : mem x l = true <-> In x l.
Proof.
  unfold mem. rewrite existsb_exists. split.
  - intros [y [Hin Heq]]. apply String.eqb_eq in Heq. now subst.
  - intros Hin. exists x. split; [assumption | apply String.eqb_refl].
Qed.

Lemma mem_false_not_In x l : mem x l = false <-> ~ In x l.
Proof.
  rewrite <- mem_In. destruct (mem x l); split; congruence.
Qed.

Lemma lookup_In {K V} (eqb : K -> K -> bool) k (d : list (K * V)) v :
  lookup eqb k d = Some v -> In v (map snd d).
Proof.
  induction d as [|[k' v'] d IH]; simpl; [discriminate|].
  destruct (eqb k' k).
  - intros H. injection H as ->. now left.
  - intros H. right. now apply IH.
Qed.

(** No character of a [string] is a surrogate, so every [string] has an
    encoding. *)
Lemma utf8_code_point_ascii c : utf8_code_point (N_of_ascii c) <> None.
Proof. each_char c; vm_compute; discriminate. Qed.

Lemma encode_utf8_total s : exists b, encode_utf8 s = Ok b.
Proof.
  induction s as [|c s [b IH]]; [now exists []|].
  cbn [encode_utf8].
  destruct (utf8_code_point (N_of_ascii c)) as [b0|] eqn:E.
  - rewrite IH. cbn [rbind]. now eexists.
  - now apply utf8_code_point_ascii in E.
Qed.

End PyFacts.

(** ** The format-code parser *)
Module MotdParserFacts.
Import Py PyFacts MotdParser MotdParserSpec.

Lemma escape_nil : escape "" = "".
Proof. reflexivity. Qed.

Lemma escape_cons c s :
  escape (String c s) = (escape_char c ++ escape s)%string.
Proof.
  unfold escape, escape_char. simpl.
  destruct (Ascii.eqb c "&") eqn:E1.
  - reflexivity.
  - simpl. destruct (Ascii.eqb c "<") eqn:E2.
    + reflexivity.
    + simpl. destruct (Ascii.eqb c ">") eqn:E3.
      * reflexivity.
      * simpl. destruct (Ascii.eqb c dquote) eqn:E4; reflexivity.
Qed.

Lemma escape_app s t : escape (s ++ t) = (escape s ++ escape t)%string.
Proof.
  induction s as [|c s IH]; [reflexivity|].
  simpl. rewrite !escape_cons, IH. now rewrite string_app_assoc.
Qed.

Lemma escape_char_unreserved c :
  reserved c = false -> escape_char c = str1 c.
Proof.
  unfold reserved, escape_char. intros H.
  repeat (apply orb_false_elim in H; destruct H as [H ?]).
  now repeat match goal with E : _ = false |- _ => rewrite E; clear E end.
Qed.

Lemma escape_char_reserved c :
  reserved c = true ->
  exists t, escape_char c = String "&" t /\ (2 < String.length t)%nat.
Proof.
  unfold reserved, escape_char. intros H.
  destruct (Ascii.eqb c "&"); [eexists; split; [reflexivity | simpl; lia]|].
  destruct (Ascii.eqb c "<"); [eexists; split; [reflexivity | simpl; lia]|].
  destruct (Ascii.eqb c ">"); [eexists; split; [reflexivity | simpl; lia]|].
  destruct (Ascii.eqb c dquote); [eexists; split; [reflexivity | simpl; lia]|].
  discriminate.
Qed.

Lemma matches_code_unreserved d : matches_code d = true -> reserved d = false.
Proof. each_char d; vm_compute; congruence. Qed.

Lemma sect_unreserved : reserved sect = false.
Proof. reflexivity. Qed.

Lemma re_split_nonempty s : exists p ps, re_split s = p :: ps.
Proof.
  induction s as [|c s IH]; simpl; [now eexists; eexists|].
  destruct IH as (p & ps & IH). rewrite IH.
  destruct s as [|d s']; simpl; [now eexists; eexists|].
  destruct (matches_marker c d); now eexists; eexists.
Qed.

Lemma re_split_cons_other c s :
  Ascii.eqb c sect = false ->
  re_split (String c s) = push_front c (re_split s).
Proof.
  intros H. destruct s as [|d s']; simpl; [reflexivity|].
  unfold matches_marker. now rewrite H.
Qed.

Lemma re_split_sect_other d s :
  matches_code d = false ->
  re_split (String sect (String d s))
  = push_front sect (re_split (String d s)).
Proof.
  intros H. cbn [re_split]. unfold matches_marker at 1.
  rewrite H, andb_false_r. reflexivity.
Qed.

Lemma re_split_sect_code d s :
  matches_code d = true ->
  re_split (String sect (String d s))
  = "" :: String sect (str1 d) :: re_split s.
Proof.
  intros H. cbn [re_split]. unfold matches_marker at 1.
  rewrite H. reflexivity.
Qed.

Lemma map_escape_push_front c l :
  l <> [] ->
  map escape (push_front c l)
  = match map escape l with
    | p :: ps => (escape_char c ++ p)%string :: ps
    | [] => []
    end.
Proof.
  destruct l as [|p ps]; [congruence|]. intros _. simpl.
  now rewrite escape_cons.
Qed.

(** Splitting a text that begins with characters other than the marker
    character: they join the first part. *)
Lemma re_split_prefix_other t s :
  contains sect t = false ->
  match re_split s with
  | p :: ps => re_split (t ++ s) = (t ++ p)%string :: ps
  | [] => False
  end.
Proof.
  induction t as [|c t IH]; intros H; simpl.
  - destruct (re_split_nonempty s) as (p & ps & ->). reflexivity.
  - simpl in H. apply orb_false_elim in H as [Hc Ht].
    specialize (IH Ht).
    destruct (re_split s) as [|p ps] eqn:Es; [assumption|].
    change (re_split (String c (t ++ s)) = String c (t ++ p) :: ps).
    rewrite re_split_cons_other by (rewrite Ascii.eqb_sym; exact Hc).
    now rewrite IH.
Qed.

Lemma escape_char_no_sect c :
  Ascii.eqb c sect = false -> contains sect (escape_char c) = false.
Proof.
  intros H. unfold escape_char.
  destruct (Ascii.eqb c "&"); [reflexivity|].
  destruct (Ascii.eqb c "<"); [reflexivity|].
  destruct (Ascii.eqb c ">"); [reflexivity|].
  destruct (Ascii.eqb c dquote); [reflexivity|].
  simpl. now rewrite H.
Qed.

(** The first character of an escaped text is no code when the first
    character of the text is none. *)
Lemma escape_head_not_code d s :
  matches_code d = false ->
  exists d' t, escape (String d s) = String d' t /\ matches_code d' = false.
Proof.
  intros H. rewrite escape_cons.
  destruct (reserved d) eqn:R.
  - destruct (escape_char_reserved d R) as (t & -> & _).
    eexists; eexists; split; [reflexivity | reflexivity].
  - rewrite (escape_char_unreserved d R). simpl.
    eexists; eexists; split; [reflexivity | assumption].
Qed.

Lemma re_split_escape_bounded n :
  forall s, (String.length s <= n)%nat ->
            re_split (escape s) = map escape (re_split s).
Proof.
  induction n as [|n IH]; intros s Hlen.
  - destruct s; [reflexivity | simpl in Hlen; lia].
  - destruct s as [|c s]; [reflexivity|].
    simpl in Hlen.
    destruct (Ascii.eqb c sect) eqn:Ec.
    + apply Ascii.eqb_eq in Ec. subst c.
      destruct s as [|d s'].
      * reflexivity.
      * destruct (matches_code d) eqn:Ed.
        -- assert (Hesc : escape (String sect (String d s'))
                          = String sect (String d (escape s'))).
           { rewrite escape_cons, escape_cons.
             rewrite (escape_char_unreserved sect sect_unreserved).
             rewrite (escape_char_unreserved d
                        (matches_code_unreserved d Ed)).
             reflexivity. }
           rewrite Hesc.
           rewrite !re_split_sect_code by assumption.
           rewrite IH by (simpl in Hlen; lia).
           cbn [map]. f_equal. f_equal.
           change (str1 d) with (String d "").
           rewrite escape_cons, escape_cons.
           rewrite (escape_char_unreserved sect sect_unreserved).
           rewrite (escape_char_unreserved d
                      (matches_code_unreserved d Ed)).
           reflexivity.
        -- rewrite re_split_sect_other by assumption.
           destruct (re_split_nonempty (String d s')) as (p & ps & Ep).
           rewrite map_escape_push_front by (rewrite Ep; discriminate).
           rewrite <- IH by lia.
           rewrite (escape_cons sect).
           rewrite (escape_char_unreserved sect sect_unreserved).
           cbn [append str1].
           destruct (escape_head_not_code d s' Ed) as (d' & t & Et & Hd').
           rewrite Et. rewrite re_split_sect_other by assumption.
           destruct (re_split_nonempty (String d' t)) as (q & qs & ->).
           reflexivity.
    + rewrite re_split_cons_other by assumption.
      destruct (re_split_nonempty s) as (p & ps & Ep).
      rewrite map_escape_push_front by (rewrite Ep; discriminate).
      rewrite <- IH by lia.
      rewrite escape_cons.
      pose proof (re_split_prefix_other (escape_char c) (escape s)
                    (escape_char_no_sect c Ec)) as Hp.
      destruct (re_split (escape s)) as [|q qs]; [contradiction|].
      exact Hp.
Qed.

Lemma re_split_escape s : re_split (escape s) = map escape (re_split s).
Proof. apply (re_split_escape_bounded (String.length s)). lia. Qed.

Lemma is_marker_part_shape p :
  is_marker_part p = true ->
  exists d, p = String sect (str1 d) /\ matches_code d = true.
Proof.
  destruct p as [|c [|d [|e p]]]; simpl; try discriminate.
  unfold matches_marker. intros H. apply andb_prop in H as [Hc Hd].
  apply Ascii.eqb_eq in Hc. subst c. now exists d.
Qed.

Lemma escape_marker_part p : is_marker_part p = true -> escape p = p.
Proof.
  intros H. destruct (is_marker_part_shape p H) as (d & -> & Hd).
  unfold str1. rewrite !escape_cons.
  rewrite (escape_char_unreserved sect sect_unreserved).
  rewrite (escape_char_unreserved d (matches_code_unreserved d Hd)).
  reflexivity.
Qed.

Lemma escape_char_length c :
  (reserved c = false /\ escape_char c = str1 c)
  \/ (reserved c = true /\ (4 <= String.length (escape_char c))%nat).
Proof.
  destruct (reserved c) eqn:R.
  - right. split; [reflexivity|].
    destruct (escape_char_reserved c R) as (t & -> & Ht). simpl. lia.
  - left. split; [reflexivity|]. now apply escape_char_unreserved.
Qed.

(** Escaping leaves a text as it is or makes it at least three characters
    longer. *)
Lemma escape_same_or_longer s :
  escape s = s \/ (String.length s + 3 <= String.length (escape s))%nat.
Proof.
  induction s as [|c s IH]; [now left|].
  rewrite escape_cons, length_append.
  destruct (escape_char_length c) as [[_ Hc]|[_ Hc]].
  - rewrite Hc. destruct IH as [IH|IH].
    + left. now rewrite IH.
    + right. simpl. lia.
  - right. destruct IH as [IH|IH].
    + rewrite IH. simpl. lia.
    + simpl. lia.
Qed.

Lemma is_marker_part_length p :
  is_marker_part p = true -> String.length p = 2%nat.
Proof.
  intros H. now destruct (is_marker_part_shape p H) as (d & -> & _).
Qed.

Lemma is_marker_part_escape p :
  is_marker_part (escape p) = is_marker_part p.
Proof.
  destruct (escape_same_or_longer p) as [->|Hlen]; [reflexivity|].
  destruct (is_marker_part (escape p)) eqn:E1.
  - apply is_marker_part_length in E1. lia.
  - destruct (is_marker_part p) eqn:E2; [|reflexivity].
    rewrite (escape_marker_part p E2) in E1. congruence.
Qed.

(** *** One iteration of the loop, case by case *)

Lemma color_not_reset x cls :
  lookup Ascii.eqb x COLOR_CODES = Some cls -> Ascii.eqb x "r" = false.
Proof. each_char x; vm_compute; congruence. Qed.

Lemma color_value_is_color x cls :
  lookup Ascii.eqb x COLOR_CODES = Some cls -> is_color cls = true.
Proof.
  intros H. apply mem_In. exact (lookup_In _ _ _ _ H).
Qed.

Lemma format_not_color x cls :
  lookup Ascii.eqb x FORMAT_CODES = Some cls ->
  lookup Ascii.eqb x COLOR_CODES = None /\ is_color cls = false.
Proof.
  each_char x; vm_compute; intros H; try discriminate;
    injection H as <-; split; reflexivity.
Qed.

Lemma not_code_class x :
  code_class x = false ->
  Ascii.eqb x "r" = false
  /\ lookup Ascii.eqb x COLOR_CODES = None
  /\ lookup Ascii.eqb x FORMAT_CODES = None.
Proof. each_char x; vm_compute; intros H; try discriminate; auto. Qed.

Lemma code_class_known x :
  code_class x = true ->
  Ascii.eqb x "r" = true
  \/ (exists cls, lookup Ascii.eqb x COLOR_CODES = Some cls)
  \/ (exists cls, lookup Ascii.eqb x FORMAT_CODES = Some cls).
Proof.
  each_char x; vm_compute; intros H; try discriminate;
    first [ now left | right; left; eexists; reflexivity
          | right; right; eexists; reflexivity ].
Qed.

Lemma looks_like_code_marker c : looks_like_code (marker (str1 c)) = true.
Proof. reflexivity. Qed.

Lemma marker_nonempty c : (marker (str1 c) =? "") = false.
Proof. reflexivity. Qed.

(** Unfolds the tests every marker-shaped part passes. *)
Ltac enter_code_branch :=
  unfold loop_body;
  rewrite marker_nonempty;
  change (startswith (str1 sect) (marker (str1 ?c))
          && (String.length (marker (str1 ?c)) =? 2)%nat)
    with (looks_like_code (marker (str1 c)));
  rewrite looks_like_code_marker;
  cbn [String.get marker str1].

Lemma loop_body_reset st c :
  lower c = "r"%char ->
  loop_body st (marker (str1 c))
  = mk_state (html_parts st ++ [span "mcformat-code" (marker "r")]) [].
Proof.
  intros H. enter_code_branch. rewrite H. reflexivity.
Qed.

Lemma loop_body_color st c cls :
  color_code c cls ->
  loop_body st (marker (str1 c))
  = mk_state
      (html_parts st ++ [span "mcformat-code" (marker (str1 c))])
      (filter (fun x => negb (is_color x)) (current_classes st) ++ [cls]).
Proof.
  unfold color_code. intros H. enter_code_branch.
  rewrite (color_not_reset _ _ H), H. reflexivity.
Qed.

Lemma loop_body_style st c cls :
  style_code c cls ->
  loop_body st (marker (str1 c))
  = mk_state
      (html_parts st ++ [span "mcformat-code" (marker (str1 c))])
      (if mem cls (current_classes st) then current_classes st
       else current_classes st ++ [cls]).
Proof.
  intros [H Hr]. enter_code_branch.
  apply Ascii.eqb_neq in Hr. rewrite Hr.
  destruct (format_not_color _ _ H) as [Hc _]. rewrite Hc, H.
  unfold append_html. now destruct (mem cls (current_classes st)).
Qed.

Lemma loop_body_unknown st c :
  matches_code c = false -> loop_body st (marker (str1 c)) = st.
Proof.
  unfold matches_code. intros H. enter_code_branch.
  destruct (not_code_class _ H) as (Hr & Hc & Hf).
  now rewrite Hr, Hc, Hf.
Qed.

Lemma loop_body_text st part :
  (part =? "") = false ->
  looks_like_code part = false ->
  loop_body st part
  = mk_state (html_parts st ++ [span (class_attr (current_classes st)) part])
             (current_classes st).
Proof.
  intros Hne Hl. unfold loop_body. rewrite Hne.
  unfold looks_like_code in Hl. rewrite Hl.
  unfold class_attr, append_html. now destruct (current_classes st).
Qed.

Lemma looks_like_code_shape part :
  looks_like_code part = true -> exists c, part = marker (str1 c).
Proof.
  unfold looks_like_code, startswith. intros H.
  apply andb_prop in H as [Hp Hl].
  destruct part as [|a [|c [|e part]]]; simpl in Hl; try discriminate.
  cbn [str1 prefix] in Hp.
  destruct (ascii_dec sect a) as [<-|]; [|discriminate Hp].
  now exists c.
Qed.

Lemma loop_body_class_step st part :
  class_step (current_classes st) (current_classes (loop_body st part)).
Proof.
  destruct (part =? "") eqn:Hne.
  { unfold loop_body. rewrite Hne. constructor. }
  destruct (looks_like_code part) eqn:Hl.
  2:{ rewrite loop_body_text by assumption. constructor. }
  destruct (looks_like_code_shape part Hl) as (c & ->).
  destruct (matches_code c) eqn:Hm.
  2:{ rewrite loop_body_unknown by assumption. constructor. }
  destruct (code_class_known _ Hm) as [Hr|[[cls Hc]|[cls Hf]]].
  - apply Ascii.eqb_eq in Hr. rewrite loop_body_reset by assumption.
    constructor.
  - rewrite (loop_body_color st c cls Hc). simpl.
    constructor. exact (color_value_is_color _ _ Hc).
  - destruct (Ascii.eqb (lower c) "r") eqn:Hr.
    + apply Ascii.eqb_eq in Hr. rewrite loop_body_reset by assumption.
      constructor.
    + apply Ascii.eqb_neq in Hr.
      rewrite (loop_body_style st c cls (conj Hf Hr)). simpl.
      destruct (mem cls (current_classes st)) eqn:Hmem; [constructor|].
      constructor; [|assumption]. exact (proj2 (format_not_color _ _ Hf)).
Qed.

(** *** Invariants of the loop *)

Lemma filter_not_color_no_color l :
  colors_of (filter (fun x => negb (is_color x)) l) = [].
Proof.
  unfold colors_of. induction l as [|x l IH]; simpl; [reflexivity|].
  destruct (is_color x) eqn:E; simpl; [assumption|].
  now rewrite E.
Qed.

Lemma class_step_one_color cur cur' :
  class_step cur cur' ->
  (length (colors_of cur) <= 1)%nat -> (length (colors_of cur') <= 1)%nat.
Proof.
  unfold colors_of.
  intros [| |cls Hc|cls Hc Hm] H; simpl; try lia.
  - rewrite filter_app. fold (colors_of (filter (fun x => negb (is_color x)) cur)).
    rewrite filter_not_color_no_color. simpl. rewrite Hc. simpl. lia.
  - rewrite filter_app. simpl. rewrite Hc. rewrite app_nil_r. exact H.
Qed.

Lemma class_step_NoDup cur cur' :
  class_step cur cur' -> NoDup cur -> NoDup cur'.
Proof.
  intros [| |cls Hc|cls Hc Hm] H.
  - assumption.
  - constructor.
  - apply NoDup_app.
    + now apply NoDup_filter.
    + repeat constructor. intros [].
    + intros x Hx [<-|[]]. apply filter_In in Hx as [_ Hx].
      rewrite Hc in Hx. discriminate.
  - apply NoDup_app.
    + assumption.
    + repeat constructor. intros [].
    + intros x Hx [<-|[]]. apply mem_false_not_In in Hm. contradiction.
Qed.

Lemma fold_loop_invariant (P : list string -> Prop) :
  (forall cur cur', class_step cur cur' -> P cur -> P cur') ->
  forall parts st,
    P (current_classes st) ->
    P (current_classes (fold_left loop_body parts st)).
Proof.
  intros Hstep parts. induction parts as [|part parts IH]; intros st H.
  - exact H.
  - simpl. apply IH. eapply Hstep; [apply loop_body_class_step | exact H].
Qed.

Lemma run_loop_one_color parts :
  (length (colors_of (current_classes (run_loop parts))) <= 1)%nat.
Proof.
  unfold run_loop.
  apply (fold_loop_invariant
           (fun cur => (length (colors_of cur) <= 1)%nat)).
  - exact class_step_one_color.
  - simpl. lia.
Qed.

Lemma run_loop_NoDup parts : NoDup (current_classes (run_loop parts)).
Proof.
  unfold run_loop. apply (fold_loop_invariant (@NoDup string)).
  - exact class_step_NoDup.
  - constructor.
Qed.

(** *** The shape of a split *)

Lemma re_split_head s :
  match re_split s with
  | t :: _ => t = "" \/ exists d t' s', t = String d t' /\ s = String d s'
  | [] => False
  end.
Proof.
  destruct s as [|c s]; [now left|].
  cbn [re_split].
  destruct (re_split_nonempty s) as (t0 & ts & E).
  destruct s as [|d s'].
  - rewrite E. right. now exists c, t0, "".
  - destruct (matches_marker c d); [now left|].
    rewrite E. right. now exists c, t0, (String d s').
Qed.

Lemma push_front_alternates c d s :
  matches_marker c d = false ->
  alternates (re_split (String d s)) ->
  alternates (push_front c (re_split (String d s))).
Proof.
  intros Hm Halt.
  pose proof (re_split_head (String d s)) as Hh.
  destruct (re_split (String d s)) as [|t ts]; [contradiction|].
  destruct Halt as [Ht Hrest]. split; [|exact Hrest].
  destruct Hh as [->|(d' & t' & s' & -> & Es)]; [reflexivity|].
  injection Es as <- <-.
  destruct t' as [|e t']; [exact Hm | reflexivity].
Qed.

Lemma re_split_alternates_bounded n :
  forall s, (String.length s <= n)%nat -> alternates (re_split s).
Proof.
  induction n as [|n IH]; intros s Hlen.
  - destruct s; [now split | simpl in Hlen; lia].
  - destruct s as [|c [|d s']].
    + now split.
    + now split.
    + simpl in Hlen. cbn [re_split].
      destruct (matches_marker c d) eqn:Hm.
      * split; [reflexivity|]. split; [exact Hm|]. apply IH. lia.
      * apply push_front_alternates; [assumption|]. apply IH. simpl. lia.
Qed.

Lemma re_split_alternates s : alternates (re_split s).
Proof. apply (re_split_alternates_bounded (String.length s)). lia. Qed.

Lemma escape_chars (s : string) :
  escape s = join "" (map escape_char (list_ascii_of_string s)).
Proof.
  induction s as [|c s IH]; [reflexivity|].
  rewrite escape_cons, IH. cbn [list_ascii_of_string map].
  now rewrite join_empty_cons.
Qed.

(** *** The claims about [parse_motd] *)

(** C9: [parse_motd] escapes the four reserved characters before it splits
    the text, and the escape step does not change the tokenization: the
    parts of the escaped text are the escaped parts of the raw text, parts
    alternate between text and marker, a part of the escaped text is a
    marker exactly where the part of the raw text is one, and a marker part
    is left as it is. *)
Theorem escape_keeps_tokenization (text : string) :
  parse_motd text
  = (if text =? "" then ""
     else join "" (html_parts (run_loop (re_split (escape text)))))
  /\ escape text = join "" (map escape_char (list_ascii_of_string text))
  /\ escape_char "&" = "&amp;" /\ escape_char "<" = "&lt;"
  /\ escape_char ">" = "&gt;" /\ escape_char dquote = "&quot;"
  /\ (forall c, reserved c = false -> escape_char c = str1 c)
  /\ re_split (escape text) = map escape (re_split text)
  /\ alternates (re_split text)
  /\ alternates (re_split (escape text))
  /\ map is_marker_part (re_split (escape text))
     = map is_marker_part (re_split text)
  /\ (forall p, is_marker_part p = true -> escape p = p).
Proof.
  split; [reflexivity|].
  split; [apply escape_chars|].
  repeat (split; [reflexivity|]).
  split; [exact escape_char_unreserved|].
  split; [apply re_split_escape|].
  split; [apply re_split_alternates|].
  split; [apply re_split_alternates|].
  split; [|exact escape_marker_part].
  rewrite re_split_escape, map_map.
  apply map_ext. intros p. apply is_marker_part_escape.
Qed.

(** C5: a text part that is exactly the marker character followed by a
    character that is no format code passes the marker test of the loop,
    matches no branch and is dropped: the state is unchanged, nothing is
    appended, and the text alone parses to the empty string. *)
Theorem unknown_code_part_dropped (c : ascii) (st : loop_state) :
  matches_code c = false ->
  loop_body st (marker (str1 c)) = st
  /\ re_split (marker (str1 c)) = [marker (str1 c)]
  /\ (reserved c = false -> parse_motd (marker (str1 c)) = "").
Proof.
  intros H. split; [now apply loop_body_unknown|].
  assert (Hs : re_split (marker (str1 c)) = [marker (str1 c)]).
  { unfold marker, str1. cbn [re_split]. unfold matches_marker.
    rewrite H, andb_false_r. reflexivity. }
  split; [exact Hs|].
  intros R. unfold parse_motd. rewrite marker_nonempty.
  assert (He : escape (marker (str1 c)) = marker (str1 c)).
  { unfold marker, str1. rewrite !escape_cons.
    rewrite (escape_char_unreserved sect sect_unreserved).
    rewrite (escape_char_unreserved c R). reflexivity. }
  rewrite He, Hs. unfold run_loop. cbn [fold_left].
  now rewrite loop_body_unknown.
Qed.

Lemma unknown_code_part_dropped_x :
  matches_code "x" = false
  /\ loop_body init_state (marker "x") = init_state
  /\ parse_motd (marker "x") = "".
Proof.
  split; [reflexivity|].
  destruct (unknown_code_part_dropped "x" init_state eq_refl)
    as (H1 & _ & H3).
  split; [exact H1 | exact (H3 eq_refl)].
Defined.

(** C6, as stated, fails: after a bold marker and a color marker the text is
    wrapped with the bold class before the color class, and after an italic
    marker and a bold marker with italic before bold, where the canonical
    order puts the color first and bold before italic. *)
Lemma class_order_counterexample :
  (exists parts part,
     parts = re_split (escape (marker "l" ++ marker "4"))
     /\ part = "Red"
     /\ (part =? "") = false /\ looks_like_code part = false
     /\ current_classes (run_loop parts)
        = ["mcformat-bold"; "mcformat-dark-red"]
     /\ html_parts (loop_body (run_loop parts) part)
        = html_parts (run_loop parts)
            ++ [span "mcformat mcformat-bold mcformat-dark-red" part]
     /\ spec_class_attr (current_classes (run_loop parts))
        = "mcformat mcformat-dark-red mcformat-bold"
     /\ html_parts (loop_body (run_loop parts) part)
        <> html_parts (run_loop parts)
             ++ [span (spec_class_attr (current_classes (run_loop parts)))
                      part])
  /\ (exists parts part,
        parts = re_split (escape (marker "o" ++ marker "l"))
        /\ part = "Text"
        /\ (part =? "") = false /\ looks_like_code part = false
        /\ html_parts (loop_body (run_loop parts) part)
           = html_parts (run_loop parts)
               ++ [span "mcformat mcformat-italic mcformat-bold" part]
        /\ spec_class_attr (current_classes (run_loop parts))
           = "mcformat mcformat-bold mcformat-italic").
Proof.
  split.
  - eexists; eexists. split; [reflexivity|]. split; [reflexivity|].
    repeat (split; [vm_compute; reflexivity|]).
    vm_compute. discriminate.
  - eexists; eexists. split; [reflexivity|]. split; [reflexivity|].
    repeat (split; [vm_compute; reflexivity|]).
    vm_compute. reflexivity.
Qed.

(** C6, amended: a text part that is not empty and does not pass the marker
    test of the loop is wrapped in one element whose class attribute is the
    base class followed by the active classes in the order in which they
    became active, or the base class and the reset class when none is
    active; a color marker moves the color class to the end of that order
    and a style marker adds its class at the end when it is not yet
    active. *)
Theorem text_part_class_list (st : loop_state) (part : string) :
  (part =? "") = false ->
  looks_like_code part = false ->
  loop_body st part
  = mk_state
      (html_parts st ++ [span (class_attr (current_classes st)) part])
      (current_classes st)
  /\ class_attr [] = "mcformat mcformat-reset"
  /\ (forall cls rest,
        class_attr (cls :: rest) = join " " ("mcformat" :: cls :: rest))
  /\ (forall c cls,
        color_code c cls ->
        current_classes (loop_body st (marker (str1 c)))
        = filter (fun x => negb (is_color x)) (current_classes st) ++ [cls])
  /\ (forall c cls,
        style_code c cls ->
        current_classes (loop_body st (marker (str1 c)))
        = if mem cls (current_classes st) then current_classes st
          else current_classes st ++ [cls]).
Proof.
  intros Hne Hl.
  split; [now apply loop_body_text|].
  split; [reflexivity|].
  split; [reflexivity|].
  split.
  - intros c cls H. now rewrite (loop_body_color st c cls H).
  - intros c cls H. now rewrite (loop_body_style st c cls H).
Qed.

Lemma text_part_class_list_Red :
  loop_body (mk_state [] ["mcformat-bold"; "mcformat-dark-red"]) "Red"
  = mk_state [span "mcformat mcformat-bold mcformat-dark-red" "Red"]
             ["mcformat-bold"; "mcformat-dark-red"].
Proof.
  exact (proj1 (text_part_class_list
                  (mk_state [] ["mcformat-bold"; "mcformat-dark-red"])
                  "Red" eq_refl eq_refl)).
Defined.

(** C7: after any number of parts of any text the state holds at most one
    color class; a color marker appends its marker element, removes the
    color classes, keeps every other class in place and makes its own class
    the one color class; the reset marker appends the reset marker element
    and clears the classes; and the example of the specification renders
    its second text with the bold class and the class of color 4. *)
Theorem color_marker_keeps_styles :
  (forall text n,
     (length (colors_of (current_classes
                (run_loop (firstn n (re_split (escape text)))))) <= 1)%nat)
  /\ (forall st c cls,
        color_code c cls ->
        loop_body st (marker (str1 c))
        = mk_state
            (html_parts st ++ [span "mcformat-code" (marker (str1 c))])
            (filter (fun x => negb (is_color x)) (current_classes st)
               ++ [cls])
        /\ filter (fun x => negb (is_color x))
             (current_classes (loop_body st (marker (str1 c))))
           = filter (fun x => negb (is_color x)) (current_classes st)
        /\ colors_of (current_classes (loop_body st (marker (str1 c))))
           = [cls])
  /\ (forall st c,
        lower c = "r"%char ->
        loop_body st (marker (str1 c))
        = mk_state (html_parts st ++ [span "mcformat-code" (marker "r")])
                   [])
  /\ parse_motd (marker "lBold" ++ marker "4Red")
     = (span "mcformat-code" (marker "l")
        ++ span "mcformat mcformat-bold" "Bold"
        ++ span "mcformat-code" (marker "4")
        ++ span "mcformat mcformat-bold mcformat-dark-red" "Red")%string.
Proof.
  split; [intros text n; apply run_loop_one_color|].
  split.
  - intros st c cls H. rewrite (loop_body_color st c cls H).
    cbn [current_classes]. split; [reflexivity|].
    pose proof (color_value_is_color _ _ H) as Hc.
    split.
    + rewrite filter_app. cbn [filter]. rewrite Hc. cbn [negb].
      rewrite app_nil_r.
      induction (current_classes st) as [|x l IH]; [reflexivity|].
      cbn [filter]. destruct (is_color x) eqn:Ex; cbn [negb]; [exact IH|].
      cbn [filter]. rewrite Ex. cbn [negb]. now rewrite IH.
    + unfold colors_of. rewrite filter_app.
      fold (colors_of (filter (fun x => negb (is_color x))
                              (current_classes st))).
      rewrite filter_not_color_no_color. cbn [filter app]. now rewrite Hc.
  - split; [intros st c H; now apply loop_body_reset|].
    vm_compute. reflexivity.
Qed.

Lemma color_marker_keeps_styles_4 :
  loop_body (mk_state [] ["mcformat-gold"; "mcformat-bold"]) (marker "4")
  = mk_state [span "mcformat-code" (marker "4")]
             ["mcformat-bold"; "mcformat-dark-red"].
Proof.
  exact (proj1 (proj1 (proj2 color_marker_keeps_styles)
                  (mk_state [] ["mcformat-gold"; "mcformat-bold"])
                  "4"%char "mcformat-dark-red" eq_refl)).
Defined.

(** C8: a style marker appends its marker element every time; on a state
    where its class is active it leaves the classes as they are, so issuing
    it twice gives the classes of issuing it once; in every state the loop
    reaches, the class is then present exactly once; and the example of the
    specification wraps its text with the bold class once. *)
Theorem style_marker_idempotent (c : ascii) (cls : string) :
  style_code c cls ->
  (forall st,
     html_parts (loop_body st (marker (str1 c)))
     = html_parts st ++ [span "mcformat-code" (marker (str1 c))])
  /\ (forall st,
        mem cls (current_classes st) = true ->
        current_classes (loop_body st (marker (str1 c)))
        = current_classes st)
  /\ (forall st,
        current_classes
          (loop_body (loop_body st (marker (str1 c))) (marker (str1 c)))
        = current_classes (loop_body st (marker (str1 c))))
  /\ (forall parts,
        count_occ string_dec
          (current_classes
             (loop_body (run_loop parts) (marker (str1 c)))) cls = 1%nat)
  /\ parse_motd (marker "l" ++ marker "lBold")
     = (span "mcformat-code" (marker "l")
        ++ span "mcformat-code" (marker "l")
        ++ span "mcformat mcformat-bold" "Bold")%string.
Proof.
  intros H.
  assert (Hin : forall st,
             mem cls (current_classes (loop_body st (marker (str1 c))))
             = true).
  { intros st. rewrite (loop_body_style st c cls H). cbn [current_classes].
    destruct (mem cls (current_classes st)) eqn:E; [exact E|].
    apply mem_In. apply in_or_app. right. now left. }
  split; [intros st; now rewrite (loop_body_style st c cls H)|].
  split.
  { intros st Hm. rewrite (loop_body_style st c cls H).
    cbn [current_classes]. now rewrite Hm. }
  split.
  { intros st.
    rewrite (loop_body_style (loop_body st (marker (str1 c))) c cls H).
    cbn [current_classes]. now rewrite Hin. }
  split; [|vm_compute; reflexivity].
  intros parts.
  assert (Hnd : NoDup (current_classes
                         (loop_body (run_loop parts) (marker (str1 c))))).
  { eapply class_step_NoDup;
      [apply loop_body_class_step | apply run_loop_NoDup]. }
  specialize (Hin (run_loop parts)). apply mem_In in Hin.
  apply (proj1 (NoDup_count_occ' string_dec _) Hnd). exact Hin.
Qed.

Lemma style_marker_idempotent_l :
  current_classes
    (loop_body (loop_body init_state (marker "l")) (marker "l"))
  = current_classes (loop_body init_state (marker "l")).
Proof.
  assert (H : style_code "l" "mcformat-bold").
  { split; [reflexivity | discriminate]. }
  exact (proj1 (proj2 (proj2 (style_marker_idempotent "l" "mcformat-bold" H)))
           init_state).
Defined.

(** The worked examples of the specification. *)
Example parse_motd_empty : parse_motd "" = "".
Proof. reflexivity. Qed.

Example parse_motd_plain :
  parse_motd "plain" = span "mcformat mcformat-reset" "plain".
Proof. vm_compute. reflexivity. Qed.

Example parse_motd_gold_reset :
  parse_motd (marker "6Gold" ++ marker "rPlain")
  = (span "mcformat-code" (marker "6") ++ span "mcformat mcformat-gold" "Gold"
     ++ span "mcformat-code" (marker "r")
     ++ span "mcformat mcformat-reset" "Plain")%string.
Proof. vm_compute. reflexivity. Qed.

(** An unknown code inside a longer text part stays in the text. *)
Example parse_motd_unknown_inside :
  parse_motd ("ab" ++ marker "xcd")
  = span "mcformat mcformat-reset" ("ab" ++ marker "xcd").
Proof. vm_compute. reflexivity. Qed.

(** *** [parse_motd_json] *)

(** C10: [parse_motd_json] returns the empty string, and raises nothing, for
    every value that is neither a str nor a dict, and for every dict that
    has neither the key text nor the key extra. *)
Theorem parse_motd_json_degenerate :
  (forall v,
     isinstance_str v = false -> isinstance_dict v = false ->
     parse_motd_json v = Ok "")
  /\ (forall d,
        lookup String.eqb "text" d = None ->
        lookup String.eqb "extra" d = None ->
        parse_motd_json (PDict d) = Ok "").
Proof.
  split.
  - intros v Hs Hd. destruct v; try reflexivity; discriminate.
  - intros d Ht He. unfold parse_motd_json. rewrite Ht, He. reflexivity.
Qed.

Lemma parse_motd_json_degenerate_values :
  parse_motd_json (PInt 7) = Ok ""
  /\ parse_motd_json (PList [PStr "a"]) = Ok ""
  /\ parse_motd_json PNone = Ok ""
  /\ parse_motd_json (PDict [("color", PStr "gold")]) = Ok "".
Proof.
  destruct parse_motd_json_degenerate as [H1 H2].
  split; [exact (H1 (PInt 7) eq_refl eq_refl)|].
  split; [exact (H1 (PList [PStr "a"]) eq_refl eq_refl)|].
  split; [exact (H1 PNone eq_refl eq_refl)|].
  exact (H2 [("color", PStr "gold")] eq_refl eq_refl).
Defined.

End MotdParserFacts.

(** ** The address resolver *)
Module ServerFacts.
Import Py PyFacts Runtime Server ServerSpec.

Lemma digits_chars l : forall acc b z,
  digits acc b l = Some z -> forallb int_char l = true.
Proof.
  induction l as [|c l IH]; intros acc b z H; [reflexivity|].
  cbn [digits] in H. cbn [forallb]. unfold int_char at 1.
  destruct (Ascii.eqb c "_") eqn:Eu.
  - destruct b; [|discriminate]. rewrite (IH _ _ _ H).
    now rewrite !orb_true_r.
  - destruct (digit_value c) as [d|]; [|discriminate].
    rewrite (IH _ _ _ H). now rewrite !orb_true_r.
Qed.

Lemma lstrip_split l :
  exists sp, l = sp ++ lstrip l /\ forallb is_space sp = true.
Proof.
  induction l as [|c l (sp & IH & Hsp)]; [now exists []|].
  cbn [lstrip]. destruct (is_space c) eqn:Ec.
  - exists (c :: sp). split; [simpl; now rewrite <- IH|].
    simpl. now rewrite Ec.
  - now exists [].
Qed.

Lemma strip_split l :
  exists sp1 sp2,
    l = sp1 ++ strip l ++ sp2
    /\ forallb is_space sp1 = true /\ forallb is_space sp2 = true.
Proof.
  unfold strip.
  destruct (lstrip_split l) as (sp1 & E1 & H1).
  destruct (lstrip_split (rev (lstrip l))) as (sp2 & E2 & H2).
  exists sp1, (rev sp2). split; [|split; [assumption|]].
  - rewrite <- rev_app_distr, <- E2, rev_involutive. exact E1.
  - rewrite forallb_forall in *. intros x Hx. apply H2.
    now apply in_rev.
Qed.

Lemma is_space_int_char c : is_space c = true -> int_char c = true.
Proof. unfold int_char. now intros ->. Qed.

Lemma digits_capped_digits l z :
  digits_capped l = Some z -> digits 0 false l = Some z.
Proof.
  unfold digits_capped.
  now destruct (max_str_digits <? Z.of_nat (length (filter is_digit l)))%Z.
Qed.

Lemma py_int_chars s z :
  py_int s = Some z -> forallb int_char (list_ascii_of_string s) = true.
Proof.
  unfold py_int. intros H.
  destruct (strip_split (list_ascii_of_string s)) as (sp1 & sp2 & E & H1 & H2).
  assert (Hmid : forallb int_char (strip (list_ascii_of_string s)) = true).
  { destruct (strip (list_ascii_of_string s)) as [|c l]; [reflexivity|].
    destruct (Ascii.eqb c "+") eqn:Ep.
    - cbn [forallb]. unfold int_char at 1. rewrite Ep.
      rewrite (digits_chars _ _ _ _ (digits_capped_digits _ _ H)).
      now rewrite !orb_true_r.
    - destruct (Ascii.eqb c "-") eqn:Em.
      + cbn [forallb]. unfold int_char at 1. rewrite Em.
        destruct (digits_capped l) as [z'|] eqn:Ed; [|discriminate].
        rewrite (digits_chars _ _ _ _ (digits_capped_digits _ _ Ed)).
        now rewrite !orb_true_r.
      + exact (digits_chars _ _ _ _ (digits_capped_digits _ _ H)). }
  rewrite E, !forallb_app, Hmid.
  assert (Hs : forall sp, forallb is_space sp = true ->
                          forallb int_char sp = true).
  { intros sp Hsp. rewrite forallb_forall in *.
    intros x Hx. apply is_space_int_char. now apply Hsp. }
  now rewrite (Hs _ H1), (Hs _ H2).
Qed.

Lemma contains_chars c s :
  contains c s = existsb (fun d => Ascii.eqb d c) (list_ascii_of_string s).
Proof. induction s as [|d s IH]; simpl; [reflexivity | now rewrite IH]. Qed.

(** A text [py_int] accepts holds no colon. *)
Lemma py_int_no_colon s z : py_int s = Some z -> contains ":" s = false.
Proof.
  intros H. apply py_int_chars in H. rewrite contains_chars.
  destruct (existsb _ _) eqn:E; [|reflexivity].
  apply existsb_exists in E as (d & Hin & Hd).
  apply Ascii.eqb_eq in Hd. subst d.
  rewrite forallb_forall in H. specialize (H _ Hin). discriminate.
Qed.

Lemma rsplit1_none sep s : contains sep s = false -> rsplit1 sep s = None.
Proof.
  induction s as [|c s IH]; [reflexivity|].
  cbn [contains rsplit1]. intros H. apply orb_false_elim in H as [Hc Hs].
  now rewrite (IH Hs), Hc.
Qed.

Lemma rsplit1_last sep h t :
  contains sep t = false ->
  rsplit1 sep (h ++ String sep t) = Some (h, t).
Proof.
  intros Ht. induction h as [|c h IH]; cbn [append rsplit1].
  - now rewrite (rsplit1_none _ _ Ht), Ascii.eqb_refl.
  - now rewrite IH.
Qed.

Lemma contains_middle sep h t : contains sep (h ++ String sep t) = true.
Proof.
  induction h as [|c h IH]; cbn [append contains].
  - now rewrite Ascii.eqb_refl.
  - rewrite IH. apply orb_true_r.
Qed.

Lemma blocked_in_range port :
  In port blocked_ports -> ((1 <=? port) && (port <=? 65535))%Z = true.
Proof.
  unfold blocked_ports. cbn [In].
  intros H. repeat (destruct H as [<-|H]; [reflexivity|]). contradiction.
Qed.

Lemma blocked_existsb port :
  In port blocked_ports -> existsb (Z.eqb port) blocked_ports = true.
Proof.
  intros H. apply existsb_exists. exists port. split; [assumption|].
  apply Z.eqb_refl.
Qed.

(** C2: for every host text, every port text that [int] reads as a port of
    the denylist, and whatever the resolver and the network would answer,
    [parse_server_address] raises the blocked-port error for host:port; the
    denylist is the thirteen ports of the specification, each of which is
    read back from its decimal form. *)
Theorem blocked_port_rejected
  (E : Env) (host port_str : string) (port : Z) :
  py_int port_str = Some port ->
  In port blocked_ports ->
  parse_server_address E (host ++ ":" ++ port_str)
  = Raise (ValueError (blocked_port_message port))
  /\ validate_server_address E host port
     = Raise (ValueError (blocked_port_message port))
  /\ blocked_ports
     = [20; 21; 22; 23; 25; 80; 443; 110; 143; 3306; 5432; 6379; 27017]%Z
  /\ Forall (fun p => py_int (str_of_int p) = Some p) blocked_ports.
Proof.
  intros Hint Hin.
  assert (Hv : validate_server_address E host port
               = Raise (ValueError (blocked_port_message port))).
  { unfold validate_server_address.
    rewrite (blocked_in_range _ Hin), (blocked_existsb _ Hin). reflexivity. }
  split; [|split; [exact Hv | split; [reflexivity|]]].
  - unfold parse_server_address.
    change (host ++ ":" ++ port_str)%string
      with (host ++ String ":" port_str)%string.
    rewrite contains_middle.
    rewrite (rsplit1_last _ _ _ (py_int_no_colon _ _ Hint)).
    rewrite Hint. cbn [rbind fst snd]. now rewrite Hv.
  - repeat constructor.
Qed.

Lemma blocked_port_rejected_ssh :
  parse_server_address Demo.env "mc.example.org:22"
  = Raise (ValueError "Port 22 is not allowed for security reasons")
  /\ parse_server_address Demo.env "no such host: 0443 "
     = Raise (ValueError "Port 443 is not allowed for security reasons").
Proof.
  split.
  - refine (proj1 (blocked_port_rejected Demo.env "mc.example.org" "22" 22
                     eq_refl _)).
    unfold blocked_ports. cbn [In]. tauto.
  - refine (proj1 (blocked_port_rejected Demo.env "no such host" " 0443 " 443
                     eq_refl _)).
    unfold blocked_ports. cbn [In]. tauto.
Defined.

End ServerFacts.

(** ** The lookup: cache, fetch and request handler *)
Module LookupFacts.
Import Py PyFacts Runtime Server ServerSpec LookupSpec.

Lemma fetch_server_status_rejected E ip e w :
  parse_server_address E ip = Raise e ->
  swallowed e = true ->
  fetch_server_status E ip w = (Ok None, w).
Proof.
  unfold swallowed. intros H Hs.
  unfold fetch_server_status, try_except, bind, lift.
  rewrite H. cbn beta iota. rewrite Hs. reflexivity.
Qed.

Lemma fetch_server_status_failed E ip host port e w :
  parse_server_address E ip = Ok (host, port) ->
  server_status E host port = Raise e ->
  swallowed e = true ->
  fetch_server_status E ip w = (Ok None, after_query E host port w).
Proof.
  unfold swallowed. intros H Hq Hs.
  unfold fetch_server_status, try_except, bind, lift, query_status.
  rewrite H. cbn beta iota. rewrite Hq. cbn beta iota. rewrite Hs.
  reflexivity.
Qed.

Lemma get_server_info_rejected E ip e w :
  parse_server_address E ip = Raise e ->
  swallowed e = true ->
  get_server_info E ip w = (Ok (offline_info ip), w).
Proof.
  intros H Hs. unfold get_server_info, bind.
  now rewrite (fetch_server_status_rejected E ip e w H Hs).
Qed.

Lemma get_server_info_failed E ip host port e w :
  parse_server_address E ip = Ok (host, port) ->
  server_status E host port = Raise e ->
  swallowed e = true ->
  get_server_info E ip w
  = (Ok (offline_info ip), after_query E host port w).
Proof.
  intros H Hq Hs. unfold get_server_info, bind.
  now rewrite (fetch_server_status_failed E ip host port e w H Hq Hs).
Qed.

Lemma get_cached_miss ip fetch_func w info w' :
  fst (Cache.get (server_cache w) ip (clock w)) = PNone ->
  fetch_func ip
    (mk_world (server_cache (after_get ip w)) (clock w)
              (trace w ++ [CacheGet ip] ++ [FetchCall ip]))
  = (Ok info, w') ->
  Cache.get_cached_server_info ip fetch_func w
  = (Ok info, after_store ip info w').
Proof.
  intros Hmiss Hfetch.
  unfold Cache.get_cached_server_info, bind, Cache.server_cache_get.
  destruct (Cache.get (server_cache w) ip (clock w)) as [v c] eqn:Eg.
  cbn [fst] in Hmiss. subst v. cbn beta iota.
  unfold emit. cbn [server_cache clock trace].
  unfold after_get in Hfetch. rewrite Eg in Hfetch.
  cbn [snd server_cache] in Hfetch.
  rewrite <- app_assoc. rewrite Hfetch.
  reflexivity.
Qed.

Lemma get_cached_hit ip fetch_func w :
  fst (Cache.get (server_cache w) ip (clock w)) <> PNone ->
  Cache.get_cached_server_info ip fetch_func w
  = (Ok (fst (Cache.get (server_cache w) ip (clock w))), after_get ip w).
Proof.
  intros Hhit.
  unfold Cache.get_cached_server_info, bind, Cache.server_cache_get,
    after_get.
  destruct (Cache.get (server_cache w) ip (clock w)) as [v c] eqn:Eg.
  cbn [fst snd] in *. destruct v; try reflexivity. congruence.
Qed.

(** *** What the resolver accepts *)

(** A resolved address is in range, off the denylist and public. *)
Lemma parse_server_address_ok E ip host port :
  parse_server_address E ip = Ok (host, port) ->
  (1 <= port <= 65535)%Z /\ ~ In port blocked_ports
  /\ is_private_ip E host = Ok false.
Proof.
  unfold parse_server_address. intros H.
  assert (Hv : validate_server_address E host port = Ok tt).
  { destruct (contains ":" ip).
    - destruct (rsplit1 ":" ip) as [[h ps]|]; [|discriminate].
      destruct (py_int ps) as [p|]; [|discriminate].
      cbn [rbind fst snd] in H.
      destruct (validate_server_address E h p) as [[]|e] eqn:Ev;
        [|discriminate].
      cbn [rbind] in H. injection H as <- <-. exact Ev.
    - cbn [rbind fst snd] in H.
      destruct (validate_server_address E ip 25565) as [[]|e] eqn:Ev;
        [|discriminate].
      cbn [rbind] in H. injection H as <- <-. exact Ev. }
  clear H. unfold validate_server_address in Hv.
  destruct ((1 <=? port) && (port <=? 65535))%Z eqn:Er; [|discriminate].
  cbn [negb] in Hv.
  destruct (existsb (Z.eqb port) blocked_ports) eqn:Eb; [discriminate|].
  destruct (is_private_ip E host) as [[|]|e]; try discriminate.
  apply andb_prop in Er as [H1 H2]. apply Z.leb_le in H1, H2.
  split; [lia|]. split; [|reflexivity].
  intros Hin. rewrite (ServerFacts.blocked_existsb _ Hin) in Eb.
  discriminate.
Qed.

(** *** The claims about the lookup *)

(** A page of the handler always has an encoding: its characters are code
    points up to U+00FF. *)
Lemma html_response_ok html :
  Main.html_response html = Ok (Main.HTMLResponse html).
Proof.
  unfold Main.html_response.
  now destruct (encode_utf8_total html) as [b ->].
Qed.

Lemma embed_body_offline E ip w w' :
  Cache.get_cached_server_info ip (get_server_info E) w
  = (Ok (offline_info ip), w') ->
  Main.get_server_embed E ip w
  = (Ok (Main.HTMLResponse (offline_page E ip)), w').
Proof.
  intros H. unfold Main.get_server_embed, try_except.
  assert (Hb : Main.embed_body E ip w
               = (Main.html_response (offline_page E ip), w')).
  { unfold Main.embed_body, bind. rewrite H. reflexivity. }
  rewrite Hb, html_response_ok. reflexivity.
Qed.

(** The handler adds nothing to the effects of the cached lookup. *)
Lemma get_server_embed_world E ip w :
  snd (Main.get_server_embed E ip w)
  = snd (Cache.get_cached_server_info ip (get_server_info E) w).
Proof.
  unfold Main.get_server_embed, try_except, Main.embed_body, bind, lift,
    Main.on_exception, ret.
  destruct (Cache.get_cached_server_info ip (get_server_info E) w)
    as [[info|e] w'].
  - cbn [snd].
    destruct (subscript info "motd") as [motd|e1].
    2:{ now destruct e1. }
    destruct (MotdParser.parse_motd_value motd) as [h|e2].
    2:{ now destruct e2. }
    destruct info; try reflexivity.
    destruct (HtmlGenerator.generate_embed_html _ _ _ _ _) as [html|e3];
      [now rewrite html_response_ok | now destruct e3].
  - now destruct e.
Qed.

(** C3: when the address resolves and the status query raises a timeout, a
    refused connection or another [OSError], [get_server_info] returns the
    offline dict (online false, the text Server Offline, no players, version
    Unknown, no favicon) and raises nothing; on a cache miss the cached
    lookup returns the same dict and the handler answers with the offline
    page. *)
Theorem fetch_failure_gives_offline
  (E : Env) (ip host : string) (port : Z) (e : exn) (w : World) :
  parse_server_address E ip = Ok (host, port) ->
  server_status E host port = Raise e ->
  is_OSError e = true ->
  get_server_info E ip w = (Ok (offline_info ip), after_query E host port w)
  /\ offline_info ip
     = PDict [ ("online", PBool false); ("motd", PStr "Server Offline");
               ("server_name", PStr ip); ("players_online", PInt 0);
               ("players_max", PInt 0); ("version", PStr "Unknown");
               ("favicon", PNone) ]
  /\ (fst (Cache.get (server_cache w) ip (clock w)) = PNone ->
      fst (Cache.get_cached_server_info ip (get_server_info E) w)
      = Ok (offline_info ip)
      /\ fst (Main.get_server_embed E ip w)
         = Ok (Main.HTMLResponse (offline_page E ip))).
Proof.
  intros Hp Hq He.
  assert (Hs : swallowed e = true) by (unfold swallowed; now rewrite He).
  split; [now apply (get_server_info_failed E ip host port e)|].
  split; [reflexivity|].
  intros Hmiss.
  pose proof (get_cached_miss ip (get_server_info E) w (offline_info ip) _
                Hmiss
                (get_server_info_failed E ip host port e _ Hp Hq Hs)) as Hc.
  split; [now rewrite Hc|].
  now rewrite (embed_body_offline E ip w _ Hc).
Qed.

Lemma fetch_failure_gives_offline_demo :
  fst (get_server_info Demo.env "slow.example.org" Demo.start)
  = Ok (offline_info "slow.example.org")
  /\ fst (get_server_info Demo.env "mc.example.org:25566" Demo.start)
     = Ok (offline_info "mc.example.org:25566").
Proof.
  split.
  - rewrite (proj1 (fetch_failure_gives_offline Demo.env "slow.example.org"
                      "slow.example.org" 25565 socket_timeout Demo.start
                      eq_refl eq_refl eq_refl)).
    reflexivity.
  - rewrite (proj1 (fetch_failure_gives_offline Demo.env
                      "mc.example.org:25566" "mc.example.org" 25566
                      ConnectionRefusedError Demo.start
                      eq_refl eq_refl eq_refl)).
    reflexivity.
Defined.

(** C1 fails in the code.  When the resolver rejects the address with a
    [ValueError], [fetch_server_status] catches the error and reports a
    missing status; the lookup has read the cache under the raw address
    before that, returns a value and never the error, and the handler sends
    the same effects.  On a cache miss the fetch function is called, the
    offline dict is stored under the address and the handler answers with
    the offline page: the [except ValueError] clause of the handler, which
    answers 400, is not reached. *)
Theorem invalid_address_swallowed
  (E : Env) (ip msg : string) (w : World) :
  parse_server_address E ip = Raise (ValueError msg) ->
  (forall w0, fetch_server_status E ip w0 = (Ok None, w0))
  /\ (exists v rest,
        fst (Cache.get_cached_server_info ip (get_server_info E) w) = Ok v
        /\ trace (snd (Cache.get_cached_server_info ip (get_server_info E) w))
           = trace w ++ CacheGet ip :: rest
        /\ trace (snd (Main.get_server_embed E ip w))
           = trace w ++ CacheGet ip :: rest)
  /\ (fst (Cache.get (server_cache w) ip (clock w)) = PNone ->
      Cache.get_cached_server_info ip (get_server_info E) w
      = (Ok (offline_info ip),
         mk_world
           (Cache.set (snd (Cache.get (server_cache w) ip (clock w))) ip
              (offline_info ip) (clock w))
           (clock w)
           (trace w ++ [ CacheGet ip; FetchCall ip;
                         CacheSet ip (offline_info ip) ]))
      /\ fst (Main.get_server_embed E ip w)
         = Ok (Main.HTMLResponse (offline_page E ip)))
  /\ ~ claimed_short_circuit E ip w.
Proof.
  intros H.
  assert (Hmiss : fst (Cache.get (server_cache w) ip (clock w)) = PNone ->
                  Cache.get_cached_server_info ip (get_server_info E) w
                  = (Ok (offline_info ip),
                     mk_world
                       (Cache.set (snd (Cache.get (server_cache w) ip
                                          (clock w))) ip
                          (offline_info ip) (clock w))
                       (clock w)
                       (trace w ++ [ CacheGet ip; FetchCall ip;
                                     CacheSet ip (offline_info ip) ]))).
  { intros Eg.
    rewrite (get_cached_miss ip (get_server_info E) w (offline_info ip)
               _ Eg (get_server_info_rejected E ip _ _ H eq_refl)).
    unfold after_store, after_get. cbn [server_cache clock trace].
    now rewrite <- !app_assoc. }
  assert (Hany : exists v rest,
             Cache.get_cached_server_info ip (get_server_info E) w
             = (Ok v, snd (Cache.get_cached_server_info ip
                             (get_server_info E) w))
             /\ trace (snd (Cache.get_cached_server_info ip
                              (get_server_info E) w))
                = trace w ++ CacheGet ip :: rest).
  { destruct (fst (Cache.get (server_cache w) ip (clock w))) eqn:Eg.
    1:{ exists (offline_info ip),
               [FetchCall ip; CacheSet ip (offline_info ip)].
        rewrite (Hmiss eq_refl). cbn [snd trace]. now split. }
    all: eexists; exists [];
      rewrite get_cached_hit by (rewrite Eg; discriminate);
      cbn [snd after_get trace]; now split. }
  split.
  { intros w0. now apply (fetch_server_status_rejected E ip (ValueError msg)). }
  split.
  { destruct Hany as (v & rest & Hv & Ht). exists v, rest.
    rewrite get_server_embed_world, Hv. now repeat split. }
  split.
  { intros Eg. split; [exact (Hmiss Eg)|].
    now rewrite (embed_body_offline E ip w _ (Hmiss Eg)). }
  intros (m & w' & Hc & _).
  destruct Hany as (v & rest & Hv & _). rewrite Hv in Hc. discriminate.
Qed.

Lemma invalid_address_swallowed_port22 :
  parse_server_address Demo.env "mc.example.org:22"
  = Raise (ValueError "Port 22 is not allowed for security reasons")
  /\ Cache.get_cached_server_info "mc.example.org:22"
       (get_server_info Demo.env) Demo.start
     = (Ok (offline_info "mc.example.org:22"),
        mk_world
          (Cache.set Cache._server_cache "mc.example.org:22"
             (offline_info "mc.example.org:22") 0)
          0
          [ CacheGet "mc.example.org:22"; FetchCall "mc.example.org:22";
            CacheSet "mc.example.org:22"
              (offline_info "mc.example.org:22") ])
  /\ fst (Main.get_server_embed Demo.env "mc.example.org:22" Demo.start)
     = Ok (Main.HTMLResponse (offline_page Demo.env "mc.example.org:22"))
  /\ ~ claimed_short_circuit Demo.env "mc.example.org:22" Demo.start.
Proof.
  destruct (invalid_address_swallowed Demo.env "mc.example.org:22"
              "Port 22 is not allowed for security reasons"
              Demo.start eq_refl)
    as (_ & _ & H & Hn).
  destruct (H eq_refl) as [H1 H2].
  split; [reflexivity|]. split; [exact H1|]. split; [exact H2 | exact Hn].
Defined.

End LookupFacts.

(** ** The expiring cache *)
Module CacheFacts.
Import Py PyFacts Cachetools CacheSpec.

Section Store.
Context {V : Type}.
Implicit Types (c : TTLCache V) (l : list (entry V)) (e : entry V).

Lemma find_entry_Some k l e :
  find_entry k l = Some e -> In e l /\ e_key e = k.
Proof.
  unfold find_entry, has_key. intros H. apply find_some in H as [Hin Hk].
  apply String.eqb_eq in Hk. now split.
Qed.

Lemma find_entry_None k l : find_entry k l = None -> ~ In k (keys l).
Proof.
  unfold find_entry, has_key, keys. intros H Hin.
  apply in_map_iff in Hin as (e & He & Hin).
  pose proof (find_none _ _ H e Hin) as Hf. cbn beta in Hf.
  rewrite He, String.eqb_refl in Hf. discriminate.
Qed.

Lemma remove_key_keys k l : ~ In k (keys (remove_key k l)).
Proof.
  unfold keys, remove_key, has_key. intros Hin.
  apply in_map_iff in Hin as (e & He & Hin).
  apply filter_In in Hin as [_ Hf].
  rewrite He, String.eqb_refl in Hf. discriminate.
Qed.

Lemma remove_key_incl k l e : In e (remove_key k l) -> In e l.
Proof. unfold remove_key. intros H. now apply filter_In in H. Qed.

Lemma live_incl now l e : In e (live now l) -> In e l.
Proof. unfold live. intros H. now apply filter_In in H. Qed.

Lemma live_alive now l e :
  In e (live now l) -> (now < expires_at e)%Z.
Proof.
  unfold live, expired. intros H. apply filter_In in H as [_ H].
  rewrite negb_involutive in H. now apply Z.ltb_lt.
Qed.

Lemma live_length now l : (length (live now l) <= length l)%nat.
Proof. apply filter_length_le. Qed.

Lemma remove_key_length k l : (length (remove_key k l) <= length l)%nat.
Proof. apply filter_length_le. Qed.

Lemma remove_key_shorter k l e :
  find_entry k l = Some e -> (length (remove_key k l) < length l)%nat.
Proof.
  unfold find_entry, remove_key.
  induction l as [|x l IH]; cbn [find filter]; [discriminate|].
  destruct (has_key k x) eqn:E; cbn [negb length].
  - intros _. pose proof (filter_length_le
                            (fun e0 => negb (has_key k e0)) l). lia.
  - intros H. specialize (IH H). lia.
Qed.

Lemma make_room_length m l :
  (1 <= m)%nat -> (length (make_room m l) <= m - 1)%nat.
Proof. unfold make_room. intros H. rewrite length_skipn. lia. Qed.

Lemma make_room_incl m l e : In e (make_room m l) -> In e l.
Proof.
  unfold make_room. intros H.
  rewrite <- (firstn_skipn (S (length l) - m) l).
  apply in_or_app. now right.
Qed.

(** A full store makes room by dropping its first, least recently used,
    entry and nothing else. *)
Lemma make_room_full m l :
  (1 <= m)%nat -> length l = m -> make_room m l = tl l.
Proof.
  unfold make_room. intros Hm <-.
  replace (S (length l) - length l)%nat with 1%nat by lia.
  now destruct l.
Qed.

Lemma make_room_spare m l : (length l < m)%nat -> make_room m l = l.
Proof.
  unfold make_room. intros H.
  now replace (S (length l) - m)%nat with 0%nat by lia.
Qed.

Lemma find_entry_last k l e :
  ~ In k (keys l) -> e_key e = k -> find_entry k (l ++ [e]) = Some e.
Proof.
  unfold find_entry, keys, has_key.
  induction l as [|x l IH]; cbn [app find map In]; intros Hn Hk.
  - now rewrite Hk, String.eqb_refl.
  - destruct (e_key x =? k) eqn:E.
    + apply String.eqb_eq in E. exfalso. apply Hn. now left.
    + apply IH; [|assumption]. intros Hin. apply Hn. now right.
Qed.

(** The entries [set] writes: the survivors it keeps, none of them under the
    key, followed by the new entry. *)
Lemma set_entries k v now c :
  exists kept,
    entries (set k v now c) = kept ++ [mk_entry k v (now + ttl c)]
    /\ ~ In k (keys kept)
    /\ (forall e, In e kept -> In e (live now (entries c)))
    /\ ((1 <= maxsize c)%nat -> fits c ->
        (length kept < maxsize c)%nat).
Proof.
  unfold set, fits.
  destruct (find_entry k (live now (entries c))) as [e|] eqn:E;
    cbn [entries].
  - exists (remove_key k (live now (entries c))).
    split; [reflexivity|]. split; [apply remove_key_keys|].
    split; [intros e0; apply remove_key_incl|].
    intros _ Hfit. pose proof (remove_key_shorter _ _ _ E).
    pose proof (live_length now (entries c)). lia.
  - exists (make_room (maxsize c) (live now (entries c))).
    split; [reflexivity|]. split.
    + intros Hin. apply (find_entry_None _ _ E).
      unfold keys in *. apply in_map_iff in Hin as (e & He & Hin).
      apply in_map_iff. exists e. split; [assumption|].
      now apply make_room_incl in Hin.
    + split; [intros e0; apply make_room_incl|].
      intros Hm _. pose proof (make_room_length (maxsize c)
                                 (live now (entries c)) Hm). lia.
Qed.

Lemma set_fits k v now c :
  (1 <= maxsize c)%nat -> fits c -> fits (set k v now c).
Proof.
  intros Hm Hfit.
  destruct (set_entries k v now c) as (kept & E & _ & _ & Hlen).
  specialize (Hlen Hm Hfit). unfold fits. rewrite E, length_app.
  replace (maxsize (set k v now c)) with (maxsize c).
  - simpl. lia.
  - unfold set. now destruct (find_entry k (live now (entries c))).
Qed.

(** A hit of [get]: the entry found, still alive, moved to the most recently
    used end. *)
Lemma get_hit k now c v c' :
  get k now c = (Some v, c') ->
  exists e,
    In e (entries c) /\ e_key e = k /\ e_value e = v
    /\ (now < expires_at e)%Z
    /\ c' = mk_cache (maxsize c) (ttl c) (remove_key k (entries c) ++ [e]).
Proof.
  unfold get. destruct (find_entry k (entries c)) as [e|] eqn:E;
    [|discriminate].
  destruct (expired now e) eqn:Ex; [discriminate|].
  intros H. injection H as <- <-. exists e.
  destruct (find_entry_Some _ _ _ E) as [Hin Hk].
  repeat split; try assumption.
  unfold expired in Ex. apply negb_false_iff in Ex. now apply Z.ltb_lt.
Qed.

Lemma get_miss k now c c' : get k now c = (None, c') -> c' = c.
Proof.
  unfold get. destruct (find_entry k (entries c)) as [e|].
  - destruct (expired now e); [|discriminate]. now intros H; injection H.
  - now intros H; injection H.
Qed.

Lemma get_fits k now c : fits c -> fits (snd (get k now c)).
Proof.
  intros Hfit. destruct (get k now c) as [[v|] c'] eqn:E; cbn [snd].
  - destruct (get_hit _ _ _ _ _ E) as (e & Hin & Hk & _ & _ & ->).
    unfold fits in *. cbn [entries maxsize]. rewrite length_app. simpl.
    assert (Hf : find_entry k (entries c) <> None).
    { unfold get in E. now destruct (find_entry k (entries c)). }
    destruct (find_entry k (entries c)) as [e0|] eqn:E0; [|congruence].
    pose proof (remove_key_shorter _ _ _ E0). lia.
  - now rewrite (get_miss _ _ _ _ E).
Qed.

Lemma get_params k now c :
  maxsize (snd (get k now c)) = maxsize c
  /\ ttl (snd (get k now c)) = ttl c.
Proof.
  unfold get. destruct (find_entry k (entries c)) as [e|]; [|now split].
  destruct (expired now e); now split.
Qed.

Lemma set_params k v now c :
  maxsize (set k v now c) = maxsize c /\ ttl (set k v now c) = ttl c.
Proof.
  unfold set. now destruct (find_entry k (live now (entries c))).
Qed.

(** Reading a key back after [set], before its time to live is over. *)
Lemma get_after_set k v now t c :
  (t < now + ttl c)%Z -> fst (get k t (set k v now c)) = Some v.
Proof.
  intros Ht. destruct (set_entries k v now c) as (kept & E & Hn & _).
  unfold get. rewrite E.
  rewrite (find_entry_last k kept (mk_entry k v (now + ttl c)) Hn eq_refl).
  unfold expired. cbn [expires_at e_value].
  apply Z.ltb_lt in Ht. rewrite Ht. reflexivity.
Qed.

(** Reading a key back once its time to live is over. *)
Lemma get_after_ttl k v now t c :
  (now + ttl c <= t)%Z -> fst (get k t (set k v now c)) = None.
Proof.
  intros Ht. destruct (set_entries k v now c) as (kept & E & Hn & _).
  unfold get. rewrite E.
  rewrite (find_entry_last k kept (mk_entry k v (now + ttl c)) Hn eq_refl).
  unfold expired. cbn [expires_at].
  apply Z.ltb_ge in Ht. rewrite Ht. reflexivity.
Qed.

Lemma sorted_filter (R : entry V -> entry V -> Prop) f l :
  StronglySorted R l -> StronglySorted R (filter f l).
Proof.
  induction 1 as [|x l Hs IH Hf]; cbn [filter]; [constructor|].
  destruct (f x); [|assumption].
  constructor; [assumption|].
  rewrite Forall_forall in *. intros y Hy. apply Hf.
  now apply filter_In in Hy.
Qed.

Lemma sorted_skipn (R : entry V -> entry V -> Prop) n l :
  StronglySorted R l -> StronglySorted R (skipn n l).
Proof.
  revert l. induction n as [|n IH]; intros l H; [assumption|].
  destruct l as [|x l]; [constructor|].
  cbn [skipn]. apply IH. now inversion H.
Qed.

Lemma sorted_snoc (R : entry V -> entry V -> Prop) l e :
  StronglySorted R l -> Forall (fun x => R x e) l ->
  StronglySorted R (l ++ [e]).
Proof.
  induction 1 as [|x l Hs IH Hf]; intros Hall; cbn [app].
  - constructor; constructor.
  - inversion Hall as [|? ? Hx Hl]; subst.
    constructor; [now apply IH|].
    apply Forall_app. split; [assumption|]. now constructor.
Qed.

Lemma sorted_ext (R R' : entry V -> entry V -> Prop) l :
  (forall x y, In x l -> In y l -> R x y -> R' x y) ->
  StronglySorted R l -> StronglySorted R' l.
Proof.
  intros Himp H. induction H as [|x l Hs IH Hf]; [constructor|].
  constructor.
  - apply IH. intros a b Ha Hb. apply Himp; now right.
  - rewrite Forall_forall in *. intros y Hy.
    apply Himp; [now left | now right | now apply Hf].
Qed.

(** Inserting a new key into a store that is full of live entries. *)
Lemma set_evicts_lru k v now c :
  (1 <= maxsize c)%nat ->
  length (live now (entries c)) = maxsize c ->
  find_entry k (live now (entries c)) = None ->
  entries (set k v now c)
  = tl (live now (entries c)) ++ [mk_entry k v (now + ttl c)].
Proof.
  intros Hm Hfull Hnew. unfold set. rewrite Hnew. cbn [entries].
  now rewrite (make_room_full _ _ Hm Hfull).
Qed.

End Store.
(** *** The global cache instance, through its four methods *)

Lemma after_calls_snoc calls o :
  after_calls (calls ++ [o]) = apply_call (after_calls calls) o.
Proof. unfold after_calls. now rewrite fold_left_app. Qed.

Lemma cache_get_snd self key now :
  snd (Cache.get self key now) = snd (get key now self).
Proof.
  unfold Cache.get. now destruct (get key now self) as [[v|] s'].
Qed.

Lemma cache_get_hit self key now v :
  fst (Cache.get self key now) = v -> v <> PNone ->
  fst (get key now self) = Some v.
Proof.
  unfold Cache.get. destruct (get key now self) as [[x|] s']; cbn [fst].
  - now intros ->.
  - intros <- H. congruence.
Qed.

Lemma after_calls_params calls :
  maxsize (after_calls calls) = 1000%nat /\ ttl (after_calls calls) = 30%Z.
Proof.
  induction calls as [|o calls IH] using rev_ind; [now split|].
  rewrite after_calls_snoc. destruct IH as [Hm Ht].
  destruct o as [key now|key v now| |now]; cbn [apply_call].
  - rewrite cache_get_snd.
    destruct (get_params key now (after_calls calls)) as [-> ->].
    now split.
  - unfold Cache.set.
    destruct (set_params key v now (after_calls calls)) as [-> ->].
    now split.
  - now split.
  - now split.
Qed.

Lemma after_calls_fits calls : fits (after_calls calls).
Proof.
  induction calls as [|o calls IH] using rev_ind.
  - unfold fits. simpl. lia.
  - rewrite after_calls_snoc.
    destruct o as [key now|key v now| |now]; cbn [apply_call].
    + rewrite cache_get_snd. now apply get_fits.
    + apply set_fits; [|assumption].
      rewrite (proj1 (after_calls_params calls)). lia.
    + unfold fits. simpl. lia.
    + assumption.
Qed.

(** Every entry of the instance was written by an earlier [set] call, and
    expires 30 seconds after that call. *)
Lemma after_calls_stored calls e :
  In e (entries (after_calls calls)) ->
  exists t0,
    In (CallSet (e_key e) (e_value e) t0) calls
    /\ expires_at e = (t0 + 30)%Z.
Proof.
  revert e. induction calls as [|o calls IH] using rev_ind; intros e.
  - intros [].
  - rewrite after_calls_snoc.
    assert (Hold : In e (entries (after_calls calls)) ->
                   exists t0,
                     In (CallSet (e_key e) (e_value e) t0) (calls ++ [o])
                     /\ expires_at e = (t0 + 30)%Z).
    { intros Hin. destruct (IH e Hin) as (t0 & H1 & H2).
      exists t0. split; [apply in_or_app; now left | assumption]. }
    destruct o as [key now|key v now| |now]; cbn [apply_call].
    + rewrite cache_get_snd.
      destruct (get key now (after_calls calls)) as [[v|] c'] eqn:E;
        cbn [snd].
      * destruct (get_hit _ _ _ _ _ E) as (e0 & Hin0 & _ & _ & _ & ->).
        cbn [entries]. intros Hin. apply in_app_or in Hin as [Hin|Hin].
        -- apply Hold. now apply remove_key_incl in Hin.
        -- destruct Hin as [<-|[]]. now apply Hold.
      * rewrite (get_miss _ _ _ _ E). exact Hold.
    + unfold Cache.set.
      destruct (set_entries key v now (after_calls calls))
        as (kept & -> & _ & Hkept & _).
      intros Hin. apply in_app_or in Hin as [Hin|Hin].
      * apply Hold. apply (live_incl now). now apply Hkept.
      * destruct Hin as [<-|[]]. cbn [e_key e_value expires_at].
        exists now. split.
        -- apply in_or_app. right. now left.
        -- now rewrite (proj2 (after_calls_params calls)).
    + intros [].
    + exact Hold.
Qed.

(** *** The order of the entries is the order of their last use *)

Lemma track_state k calls :
  fold_left (track k) calls (Cache._server_cache, 0%nat, 0%nat)
  = (after_calls calls, length calls, last_use calls k).
Proof.
  unfold last_use.
  induction calls as [|o calls IH] using rev_ind; [reflexivity|].
  rewrite fold_left_app, after_calls_snoc, length_app. cbn [fold_left].
  rewrite IH. cbn [track snd length].
  now replace (length calls + 1)%nat with (S (length calls)) by lia.
Qed.

Lemma last_use_snoc calls o k :
  last_use (calls ++ [o]) k
  = if uses (after_calls calls) o k then S (length calls)
    else last_use calls k.
Proof.
  unfold last_use at 1. rewrite fold_left_app. cbn [fold_left].
  rewrite track_state. reflexivity.
Qed.

Lemma last_use_le calls k : (last_use calls k <= length calls)%nat.
Proof.
  induction calls as [|o calls IH] using rev_ind; [reflexivity|].
  rewrite last_use_snoc, length_app. cbn [length].
  destruct (uses (after_calls calls) o k); lia.
Qed.

Lemma last_use_mono calls o k :
  (last_use calls k <= last_use (calls ++ [o]) k)%nat.
Proof.
  rewrite last_use_snoc. pose proof (last_use_le calls k).
  destruct (uses (after_calls calls) o k); lia.
Qed.

(** A call that uses no key leaves the order as it is. *)
Lemma used_before_idle calls o l :
  (forall k, uses (after_calls calls) o k = false) ->
  StronglySorted (used_before calls) l ->
  StronglySorted (used_before (calls ++ [o])) l.
Proof.
  intros Hno. apply sorted_ext. intros x y _ _. unfold used_before.
  now rewrite !last_use_snoc, !Hno.
Qed.

(** A call that uses the key [key] makes its entry the most recently used
    one, and leaves the order of the others as it is. *)
Lemma used_before_step calls o key kept e :
  StronglySorted (used_before calls) kept ->
  ~ In key (keys kept) ->
  e_key e = key ->
  uses (after_calls calls) o key = true ->
  (forall k, k <> key -> uses (after_calls calls) o k = false) ->
  StronglySorted (used_before (calls ++ [o])) (kept ++ [e]).
Proof.
  intros Hs Hn Hk Hkey Hother.
  assert (Hkept : forall x, In x kept ->
            last_use (calls ++ [o]) (e_key x) = last_use calls (e_key x)).
  { intros x Hx. rewrite last_use_snoc, Hother; [reflexivity|].
    intros Heq. apply Hn. rewrite <- Heq. unfold keys. now apply in_map. }
  apply sorted_snoc.
  - revert Hs. apply sorted_ext. intros x y Hx Hy. unfold used_before.
    now rewrite (Hkept x Hx), (Hkept y Hy).
  - apply Forall_forall. intros x Hx. unfold used_before.
    rewrite (Hkept x Hx), Hk, last_use_snoc, Hkey.
    pose proof (last_use_le calls (e_key x)). lia.
Qed.

Lemma uses_set_other calls key v now k :
  k <> key -> uses (after_calls calls) (CallSet key v now) k = false.
Proof. intros H. cbn [uses]. apply String.eqb_neq. congruence. Qed.

Lemma uses_get_other calls key now k :
  k <> key -> uses (after_calls calls) (CallGet key now) k = false.
Proof.
  intros H. cbn [uses].
  replace (String.eqb key k) with false; [reflexivity|].
  symmetry. apply String.eqb_neq. congruence.
Qed.

Lemma after_calls_sorted calls :
  StronglySorted (used_before calls) (entries (after_calls calls)).
Proof.
  induction calls as [|o calls IH] using rev_ind; [constructor|].
  rewrite after_calls_snoc.
  destruct o as [key now|key v now| |now]; cbn [apply_call].
  - rewrite cache_get_snd.
    destruct (get key now (after_calls calls)) as [[v|] c'] eqn:E;
      cbn [snd].
    + destruct (get_hit _ _ _ _ _ E) as (e & _ & Hk & _ & _ & ->).
      cbn [entries]. apply (used_before_step calls _ key).
      * now apply sorted_filter.
      * apply remove_key_keys.
      * exact Hk.
      * cbn [uses]. now rewrite String.eqb_refl, E.
      * intros k. apply uses_get_other.
    + rewrite (get_miss _ _ _ _ E). apply used_before_idle; [|exact IH].
      intros k. cbn [uses]. rewrite E. apply andb_false_r.
  - unfold Cache.set, set.
    destruct (find_entry key (live now (entries (after_calls calls))))
      as [e0|] eqn:E; cbn [entries].
    + apply (used_before_step calls _ key).
      * apply sorted_filter. now apply sorted_filter.
      * apply remove_key_keys.
      * reflexivity.
      * cbn [uses]. apply String.eqb_refl.
      * intros k. apply uses_set_other.
    + apply (used_before_step calls _ key).
      * apply sorted_skipn. now apply sorted_filter.
      * intros Hin. apply (find_entry_None _ _ E).
        unfold keys in *. apply in_map_iff in Hin as (e & He & Hin).
        apply in_map_iff. exists e. split; [assumption|].
        now apply make_room_incl in Hin.
      * reflexivity.
      * cbn [uses]. apply String.eqb_refl.
      * intros k. apply uses_set_other.
  - constructor.
  - now apply used_before_idle.
Qed.

(** Every entry of the instance is there by a call that used its key. *)
Lemma after_calls_used calls e :
  In e (entries (after_calls calls)) -> (1 <= last_use calls (e_key e))%nat.
Proof.
  revert e. induction calls as [|o calls IH] using rev_ind; intros e.
  - intros [].
  - rewrite after_calls_snoc.
    assert (Hold : In e (entries (after_calls calls)) ->
                   (1 <= last_use (calls ++ [o]) (e_key e))%nat).
    { intros Hin. pose proof (IH e Hin).
      pose proof (last_use_mono calls o (e_key e)). lia. }
    destruct o as [key now|key v now| |now]; cbn [apply_call].
    + rewrite cache_get_snd.
      destruct (get key now (after_calls calls)) as [[v|] c'] eqn:E;
        cbn [snd].
      * destruct (get_hit _ _ _ _ _ E) as (e0 & Hin0 & _ & _ & _ & ->).
        cbn [entries]. intros Hin. apply in_app_or in Hin as [Hin|Hin].
        -- apply Hold. now apply remove_key_incl in Hin.
        -- destruct Hin as [<-|[]]. now apply Hold.
      * rewrite (get_miss _ _ _ _ E). exact Hold.
    + unfold Cache.set.
      destruct (set_entries key v now (after_calls calls))
        as (kept & -> & _ & Hkept & _).
      intros Hin. apply in_app_or in Hin as [Hin|Hin].
      * apply Hold. apply (live_incl now). now apply Hkept.
      * destruct Hin as [<-|[]]. cbn [e_key].
        rewrite last_use_snoc. cbn [uses]. rewrite String.eqb_refl. lia.
    + intros [].
    + exact Hold.
Qed.

(** C4: after any sequence of calls on the global cache instance, the store
    holds at most 1000 entries and reports a size of at most 1000; a value
    other than None that [get] returns was stored by an earlier [set] call
    under that key less than 30 seconds before; a hit makes its entry the
    most recently used one; a [set] of a new key into a store of 1000 live
    entries drops exactly the least recently used one, whatever its expiry
    time; [get] returns the value of a [set] at once and until the 30
    seconds are over, and nothing from then on.  The order of the entries
    is the order of their last use, a use being a [set] of the key or a
    [get] that found it: every entry was used by some call, an entry nearer
    the front was last used by an earlier call, and the entry a [set] of a
    new key drops from a store of 1000 live entries was last used before
    every other live entry, all of which stay. *)
Theorem server_cache_invariants (calls : list call) :
  (length (entries (after_calls calls)) <= 1000)%nat
  /\ (forall now, (Cache.size (after_calls calls) now <= 1000)%nat)
  /\ (forall key now v,
        fst (Cache.get (after_calls calls) key now) = v -> v <> PNone ->
        exists t0, In (CallSet key v t0) calls /\ (now - t0 < 30)%Z)
  /\ (forall key now v,
        fst (Cache.get (after_calls calls) key now) = v -> v <> PNone ->
        exists e,
          e_key e = key /\ e_value e = v
          /\ entries (snd (Cache.get (after_calls calls) key now))
             = remove_key key (entries (after_calls calls)) ++ [e])
  /\ (forall key v now,
        length (live now (entries (after_calls calls))) = 1000%nat ->
        find_entry key (live now (entries (after_calls calls))) = None ->
        entries (Cache.set (after_calls calls) key v now)
        = tl (live now (entries (after_calls calls)))
            ++ [mk_entry key v (now + 30)])
  /\ (forall key v now t,
        (now <= t < now + 30)%Z ->
        fst (Cache.get (Cache.set (after_calls calls) key v now) key t) = v)
  /\ (forall key v now t,
        (now + 30 <= t)%Z ->
        fst (Cache.get (Cache.set (after_calls calls) key v now) key t)
        = PNone)
  /\ Forall (fun e => (1 <= last_use calls (e_key e))%nat)
       (entries (after_calls calls))
  /\ StronglySorted (used_before calls) (entries (after_calls calls))
  /\ (forall key v now,
        length (live now (entries (after_calls calls))) = 1000%nat ->
        find_entry key (live now (entries (after_calls calls))) = None ->
        exists d,
          hd_error (live now (entries (after_calls calls))) = Some d
          /\ ~ In d (entries (Cache.set (after_calls calls) key v now))
          /\ forall e,
               In e (live now (entries (after_calls calls))) -> e <> d ->
               In e (entries (Cache.set (after_calls calls) key v now))
               /\ used_before calls d e).
Proof.
  destruct (after_calls_params calls) as [Hm Ht].
  pose proof (after_calls_fits calls) as Hfit. unfold fits in Hfit.
  rewrite Hm in Hfit.
  split; [exact Hfit|].
  split.
  { intros now. unfold Cache.size, size.
    pose proof (live_length now (entries (after_calls calls))). lia. }
  split.
  { intros key now v Hv Hne.
    pose proof (cache_get_hit _ _ _ _ Hv Hne) as Hg.
    destruct (get key now (after_calls calls)) as [r c'] eqn:E.
    cbn [fst] in Hg. subst r.
    destruct (get_hit _ _ _ _ _ E) as (e & Hin & Hk & Hval & Hlt & _).
    destruct (after_calls_stored calls e Hin) as (t0 & Hset & Hexp).
    exists t0. rewrite Hk, Hval in Hset. split; [assumption | lia]. }
  split.
  { intros key now v Hv Hne.
    pose proof (cache_get_hit _ _ _ _ Hv Hne) as Hg.
    rewrite cache_get_snd.
    destruct (get key now (after_calls calls)) as [r c'] eqn:E.
    cbn [fst] in Hg. subst r.
    destruct (get_hit _ _ _ _ _ E) as (e & _ & Hk & Hval & _ & ->).
    exists e. now repeat split. }
  split.
  { intros key v now Hfull Hnew. unfold Cache.set.
    rewrite <- Ht.
    apply set_evicts_lru; [rewrite Hm; lia | now rewrite Hm | assumption]. }
  split.
  { intros key v now t [_ Hlt]. unfold Cache.get, Cache.set.
    pose proof (get_after_set key v now t (after_calls calls)) as H.
    rewrite Ht in H. specialize (H Hlt).
    destruct (get key t (set key v now (after_calls calls))) as [r c'].
    cbn [fst] in H. now subst r. }
  split.
  { intros key v now t Hge. unfold Cache.get, Cache.set.
    pose proof (get_after_ttl key v now t (after_calls calls)) as H.
    rewrite Ht in H. specialize (H Hge).
    destruct (get key t (set key v now (after_calls calls))) as [r c'].
    cbn [fst] in H. now subst r. }
  split.
  { apply Forall_forall. intros e. apply after_calls_used. }
  split; [apply after_calls_sorted|].
  intros key v now Hfull Hnew.
  pose proof (sorted_filter (used_before calls)
                (fun e => negb (expired now e)) _
                (after_calls_sorted calls)) as Hs.
  fold (live now (entries (after_calls calls))) in Hs.
  assert (Hset : entries (Cache.set (after_calls calls) key v now)
                 = tl (live now (entries (after_calls calls)))
                     ++ [mk_entry key v (now + ttl (after_calls calls))]).
  { unfold Cache.set.
    apply set_evicts_lru; [rewrite Hm; lia | now rewrite Hm | assumption]. }
  pose proof (find_entry_None _ _ Hnew) as Hkey.
  destruct (live now (entries (after_calls calls))) as [|d rest] eqn:El;
    [discriminate Hfull|].
  exists d. split; [reflexivity|].
  rewrite Hset. cbn [tl]. inversion Hs as [|? ? Hrest Hd]; subst.
  rewrite Forall_forall in Hd. split.
  - intros Hin. apply in_app_or in Hin as [Hin|[Heq|[]]].
    + specialize (Hd d Hin). unfold used_before in Hd. lia.
    + apply Hkey. rewrite <- Heq. cbn [keys map e_key]. now left.
  - intros e [Heq|Hin] Hne; [congruence|].
    split; [apply in_or_app; now left | now apply Hd].
Qed.

(** Storing a key again makes it the most recently used one. *)
Example set_again_is_a_use :
  keys (entries (after_calls [ CallSet "a" (PInt 1) 0; CallSet "b" (PInt 2) 0;
                               CallSet "a" (PInt 3) 1 ]))
  = ["b"; "a"]
  /\ last_use [ CallSet "a" (PInt 1) 0; CallSet "b" (PInt 2) 0;
                CallSet "a" (PInt 3) 1 ] "a" = 3%nat.
Proof. split; vm_compute; reflexivity. Qed.

Lemma server_cache_invariants_full :
  entries (Cache.set (after_calls fill_calls) "new" PNone 3)
  = tl (live 3 (entries (after_calls fill_calls)))
      ++ [mk_entry "new" PNone 33].
Proof.
  destruct (server_cache_invariants fill_calls) as (_ & _ & _ & _ & H & _).
  apply H; vm_compute; reflexivity.
Defined.

(** The entry dropped is the least recently used one, although the entry
    read last expires before it. *)
Example lru_ignores_expiry :
  hd_error (live 3 (entries (after_calls fill_calls)))
  = Some (mk_entry "1" (PInt 1) 31)
  /\ find_entry "1"
       (entries (Cache.set (after_calls fill_calls) "new" PNone 3))
     = None
  /\ find_entry "0"
       (entries (Cache.set (after_calls fill_calls) "new" PNone 3))
     = Some (mk_entry "0" (PInt 0) 30)
  /\ length (entries (Cache.set (after_calls fill_calls) "new" PNone 3))
     = 1000%nat.
Proof. split; [|split; [|split]]; vm_compute; reflexivity. Qed.

End CacheFacts.

(** * Further properties of the code *)

(** ** The parser *)
Module ParserExtras.
Import Py PyFacts MotdParser MotdParserSpec MotdParserFacts ExtrasSpec.

Lemma contains_app c a b :
  contains c (a ++ b) = contains c a || contains c b.
Proof.
  induction a as [|d a IH]; [reflexivity|].
  cbn [append contains]. rewrite IH. now rewrite orb_assoc.
Qed.

Lemma contains_join c l :
  contains c (join "" l) = existsb (contains c) l.
Proof.
  induction l as [|x l IH]; [reflexivity|].
  rewrite join_empty_cons, contains_app, IH. reflexivity.
Qed.

Lemma join_push_front c l :
  l <> [] -> join "" (push_front c l) = String c (join "" l).
Proof.
  destruct l as [|p ps]; [congruence|]. intros _.
  cbn [push_front]. now rewrite !join_empty_cons.
Qed.

Lemma re_split_not_nil s : re_split s <> [].
Proof. destruct (re_split_nonempty s) as (p & ps & ->). discriminate. Qed.

Lemma re_split_cons2 c d s :
  re_split (String c (String d s))
  = if matches_marker c d then "" :: String c (str1 d) :: re_split s
    else push_front c (re_split (String d s)).
Proof. reflexivity. Qed.

Lemma re_split_join_bounded n :
  forall s, (String.length s <= n)%nat -> join "" (re_split s) = s.
Proof.
  induction n as [|n IH]; intros s Hlen.
  - destruct s; [reflexivity | simpl in Hlen; lia].
  - destruct s as [|c [|d s']]; [reflexivity | reflexivity |].
    simpl in Hlen. rewrite re_split_cons2.
    destruct (matches_marker c d).
    + rewrite !join_empty_cons. rewrite IH by lia. reflexivity.
    + rewrite join_push_front by apply re_split_not_nil.
      rewrite IH by (simpl; lia). reflexivity.
Qed.

(** X1: the split loses nothing: the parts, joined, are the text. *)
Theorem re_split_join (s : string) : join "" (re_split s) = s.
Proof. apply (re_split_join_bounded (String.length s)). lia. Qed.

Lemma escape_char_clean c d :
  reserved c = true -> Ascii.eqb c "&" = false ->
  contains c (escape_char d) = false.
Proof.
  intros Hc Hamp. unfold escape_char.
  destruct (Ascii.eqb d "&") eqn:E1; [revert Hc Hamp; each_char c; vm_compute; congruence|].
  destruct (Ascii.eqb d "<") eqn:E2; [revert Hc Hamp; each_char c; vm_compute; congruence|].
  destruct (Ascii.eqb d ">") eqn:E3; [revert Hc Hamp; each_char c; vm_compute; congruence|].
  destruct (Ascii.eqb d dquote) eqn:E4; [revert Hc Hamp; each_char c; vm_compute; congruence|].
  cbn [str1 contains]. rewrite orb_false_r.
  destruct (Ascii.eqb d c) eqn:E; [|reflexivity].
  apply Ascii.eqb_eq in E. subst d.
  unfold reserved in Hc. rewrite E1, E2, E3, E4 in Hc. discriminate.
Qed.

Lemma escape_clean c s :
  reserved c = true -> Ascii.eqb c "&" = false ->
  contains c (escape s) = false.
Proof.
  intros Hc Hamp. induction s as [|d s IH]; [reflexivity|].
  rewrite escape_cons, contains_app, IH.
  now rewrite (escape_char_clean c d Hc Hamp).
Qed.

Lemma part_of_split c s part :
  In part (re_split s) -> contains c s = false -> contains c part = false.
Proof.
  intros Hin Hs.
  rewrite <- (re_split_join_bounded (String.length s) s (le_n _)),
    contains_join in Hs.
  destruct (contains c part) eqn:E; [|reflexivity].
  assert (existsb (contains c) (re_split s) = true).
  { apply existsb_exists. now exists part. }
  congruence.
Qed.

(** X2: the escaped text holds no less-than sign, no greater-than sign and
    no double quote, and neither does any part the loop of [parse_motd]
    wraps: what the message contributes to the markup is inert text. *)
Theorem escape_leaves_no_markup (text : string) :
  contains "<" (escape text) = false
  /\ contains ">" (escape text) = false
  /\ contains dquote (escape text) = false
  /\ (forall part,
        In part (re_split (escape text)) ->
        contains "<" part = false /\ contains ">" part = false
        /\ contains dquote part = false).
Proof.
  assert (H1 := escape_clean "<" text eq_refl eq_refl).
  assert (H2 := escape_clean ">" text eq_refl eq_refl).
  assert (H3 := escape_clean dquote text eq_refl eq_refl).
  repeat split; try assumption;
    eapply part_of_split; eassumption.
Qed.

Lemma re_split_no_sect s : contains sect s = false -> re_split s = [s].
Proof.
  induction s as [|c s IH]; [reflexivity|].
  cbn [contains]. intros H. apply orb_false_elim in H as [Hc Hs].
  rewrite re_split_cons_other by exact Hc.
  now rewrite (IH Hs).
Qed.

Lemma escape_no_sect s : contains sect s = false -> contains sect (escape s) = false.
Proof.
  induction s as [|c s IH]; [reflexivity|].
  cbn [contains]. intros H. apply orb_false_elim in H as [Hc Hs].
  rewrite escape_cons, contains_app, (IH Hs).
  now rewrite (escape_char_no_sect c Hc).
Qed.

Lemma escape_not_empty s : (s =? "") = false -> (escape s =? "") = false.
Proof.
  destruct s as [|c s]; [discriminate|]. intros _. rewrite escape_cons.
  destruct (escape_char_length c) as [[_ ->]|[R _]]; [reflexivity|].
  now destruct (escape_char_reserved c R) as (t & -> & _).
Qed.

Lemma no_sect_not_code s : contains sect s = false -> looks_like_code s = false.
Proof.
  destruct s as [|c s]; [reflexivity|].
  cbn [contains]. intros H. apply orb_false_elim in H as [Hc _].
  unfold looks_like_code, startswith. cbn [str1 prefix].
  destruct (ascii_dec sect c) as [<-|]; [|reflexivity].
  rewrite Ascii.eqb_refl in Hc. discriminate.
Qed.

(** X3: a text without the marker character, if not empty, becomes one
    element: the escaped text wrapped with the default reset class. *)
Theorem parse_motd_without_markers (text : string) :
  (text =? "") = false ->
  contains sect text = false ->
  parse_motd text = span "mcformat mcformat-reset" (escape text).
Proof.
  intros Hne Hs. unfold parse_motd. rewrite Hne.
  rewrite (re_split_no_sect _ (escape_no_sect _ Hs)).
  unfold run_loop. cbn [fold_left].
  rewrite loop_body_text;
    [reflexivity | now apply escape_not_empty
    | apply no_sect_not_code; now apply escape_no_sect].
Qed.

Lemma parse_motd_without_markers_tag :
  parse_motd "a<b>"
  = span "mcformat mcformat-reset" "a&lt;b&gt;".
Proof. exact (parse_motd_without_markers "a<b>" eq_refl eq_refl). Defined.

(** *** Composition at a reset marker *)

Lemma push_front_app c l1 l2 :
  l1 <> [] -> push_front c (l1 ++ l2) = push_front c l1 ++ l2.
Proof. destruct l1; [congruence | reflexivity]. Qed.

Lemma sect_no_code : matches_code sect = false.
Proof. reflexivity. Qed.

Lemma re_split_at_marker_bounded c y n :
  matches_code c = true ->
  forall x, (String.length x <= n)%nat ->
    re_split (x ++ String sect (String c y))
    = re_split x ++ String sect (str1 c) :: re_split y.
Proof.
  intros Hc. induction n as [|n IH]; intros x Hlen.
  - destruct x; [|simpl in Hlen; lia].
    cbn [append]. now rewrite re_split_sect_code.
  - destruct x as [|a [|d x']].
    + cbn [append]. now rewrite re_split_sect_code.
    + cbn [append]. rewrite re_split_cons2.
      unfold matches_marker at 1. rewrite sect_no_code, andb_false_r.
      now rewrite re_split_sect_code.
    + simpl in Hlen.
      change ((String a (String d x') ++ String sect (String c y))%string)
        with (String a (String d (x' ++ String sect (String c y)))).
      rewrite !re_split_cons2.
      destruct (matches_marker a d).
      * rewrite IH by lia. reflexivity.
      * change (String d (x' ++ String sect (String c y)))
          with ((String d x' ++ String sect (String c y))%string).
        rewrite IH by (simpl; lia).
        now rewrite push_front_app by apply re_split_not_nil.
Qed.

Lemma re_split_at_marker c x y :
  matches_code c = true ->
  re_split (x ++ String sect (String c y))
  = re_split x ++ String sect (str1 c) :: re_split y.
Proof.
  intros Hc. apply (re_split_at_marker_bounded c y (String.length x) Hc).
  lia.
Qed.

(** The markup a part adds does not depend on the markup made so far. *)
Lemma loop_body_frame h cur part :
  loop_body (mk_state h cur) part
  = mk_state (h ++ html_parts (loop_body (mk_state [] cur) part))
             (current_classes (loop_body (mk_state [] cur) part)).
Proof.
  unfold loop_body, append_html. cbn [html_parts current_classes].
  repeat match goal with
         | |- context [if ?b then _ else _] => destruct b
         | |- context [match ?x with _ => _ end] => destruct x
         end;
    cbn [html_parts current_classes app]; rewrite ?app_nil_r; reflexivity.
Qed.

Lemma fold_loop_frame parts : forall h cur,
  fold_left loop_body parts (mk_state h cur)
  = mk_state
      (h ++ html_parts (fold_left loop_body parts (mk_state [] cur)))
      (current_classes (fold_left loop_body parts (mk_state [] cur))).
Proof.
  induction parts as [|part parts IH]; intros h cur.
  - cbn [fold_left html_parts current_classes]. now rewrite app_nil_r.
  - cbn [fold_left]. rewrite (loop_body_frame h cur part).
    destruct (loop_body (mk_state [] cur) part) as [h1 c1].
    cbn [html_parts current_classes].
    rewrite (IH (h ++ h1) c1), (IH h1 c1).
    cbn [html_parts current_classes]. now rewrite app_assoc.
Qed.

Lemma parse_motd_unfold text :
  parse_motd text = join "" (html_parts (run_loop (re_split (escape text)))).
Proof. unfold parse_motd. now destruct text. Qed.

(** X4: a reset marker cuts the text in two texts that are parsed on their
    own: the markup of the whole is the markup of what stands before the
    marker, the reset marker element, and the markup of what follows, so no
    color or style set before the marker reaches the text after it. *)
Theorem parse_motd_reset_splits (c : ascii) (before after : string) :
  lower c = "r"%char ->
  parse_motd (before ++ marker (str1 c) ++ after)
  = (parse_motd before ++ span "mcformat-code" (marker "r")
     ++ parse_motd after)%string.
Proof.
  intros Hr.
  assert (Hc : matches_code c = true) by (unfold matches_code; now rewrite Hr).
  rewrite !parse_motd_unfold.
  assert (He : escape (before ++ marker (str1 c) ++ after)
               = (escape before ++ String sect (String c (escape after)))%string).
  { rewrite escape_app. f_equal.
    change ((marker (str1 c) ++ after)%string)
      with (String sect (String c after)).
    rewrite !escape_cons.
    rewrite (escape_char_unreserved sect sect_unreserved).
    now rewrite (escape_char_unreserved c (matches_code_unreserved c Hc)). }
  rewrite He, (re_split_at_marker c _ _ Hc).
  unfold run_loop. rewrite fold_left_app. cbn [fold_left].
  change (String sect (str1 c)) with (marker (str1 c)).
  rewrite (loop_body_reset _ c Hr).
  rewrite fold_loop_frame. cbn [html_parts].
  rewrite !join_empty_app. cbn [join String.concat].
  now rewrite string_app_assoc.
Qed.

Lemma parse_motd_reset_splits_gold :
  parse_motd (marker "6Gold" ++ marker "R" ++ "Plain")
  = (parse_motd (marker "6Gold") ++ span "mcformat-code" (marker "r")
     ++ parse_motd "Plain")%string.
Proof. exact (parse_motd_reset_splits "R" (marker "6Gold") "Plain" eq_refl). Defined.

(** *** The classes the loop makes active *)

Lemma color_is_known x cls :
  lookup Ascii.eqb x COLOR_CODES = Some cls -> known_class cls.
Proof. intros H. left. exact (color_value_is_color _ _ H). Qed.

Lemma style_is_known x cls :
  lookup Ascii.eqb x FORMAT_CODES = Some cls ->
  Ascii.eqb x "r" = false -> In cls STYLE_ORDER.
Proof.
  each_char x; vm_compute; intros H Hr; try discriminate;
    injection H as <-; tauto.
Qed.

Lemma loop_body_known st part :
  Forall known_class (current_classes st) ->
  Forall known_class (current_classes (loop_body st part)).
Proof.
  intros Hst.
  destruct (part =? "") eqn:Hne.
  { unfold loop_body. now rewrite Hne. }
  destruct (looks_like_code part) eqn:Hl.
  2:{ now rewrite loop_body_text by assumption. }
  destruct (looks_like_code_shape part Hl) as (c & ->).
  destruct (matches_code c) eqn:Hm.
  2:{ now rewrite loop_body_unknown by assumption. }
  destruct (Ascii.eqb (lower c) "r") eqn:Hr.
  { apply Ascii.eqb_eq in Hr. rewrite loop_body_reset by assumption.
    constructor. }
  destruct (code_class_known _ Hm) as [Hr'|[[cls Hc]|[cls Hf]]].
  - congruence.
  - rewrite (loop_body_color st c cls Hc). cbn [current_classes].
    apply Forall_app. split.
    + rewrite Forall_forall in *. intros x Hx.
      apply filter_In in Hx as [Hx _]. now apply Hst.
    + constructor; [exact (color_is_known _ _ Hc) | constructor].
  - assert (Hs : style_code c cls).
    { split; [assumption | now apply Ascii.eqb_neq]. }
    rewrite (loop_body_style st c cls Hs). cbn [current_classes].
    destruct (mem cls (current_classes st)); [assumption|].
    apply Forall_app. split; [assumption|].
    constructor; [right; exact (style_is_known _ _ Hf Hr) | constructor].
Qed.

(** X5: after any parts, every active class is one of the sixteen color
    classes or one of the five style classes, so the class of the reset code
    is never active and appears on a text only as the default. *)
Theorem active_classes_are_known (parts : list string) :
  Forall known_class (current_classes (run_loop parts))
  /\ ~ In "mcformat-reset" (current_classes (run_loop parts)).
Proof.
  assert (H : Forall known_class (current_classes (run_loop parts))).
  { unfold run_loop.
    assert (G : forall st, Forall known_class (current_classes st) ->
                Forall known_class
                  (current_classes (fold_left loop_body parts st))).
    { induction parts as [|part parts IH]; intros st Hst; [exact Hst|].
      cbn [fold_left]. apply IH. now apply loop_body_known. }
    apply G. constructor. }
  split; [exact H|].
  intros Hin. rewrite Forall_forall in H. specialize (H _ Hin).
  destruct H as [H|H]; [vm_compute in H; discriminate|].
  unfold STYLE_ORDER in H. cbn [In] in H.
  repeat (destruct H as [H|H]; [discriminate|]). contradiction.
Qed.

(** *** [parse_motd_json] on a text component *)

Lemma extra_item_leaf item text r :
  leaf_text item text ->
  exists frags,
    extra_item r item = Ok (r ++ frags)
    /\ join "" frags = parse_motd text.
Proof.
  intros [s|d s Hd|d Hd|v Hs Hv].
  - exists [parse_motd s]. now split.
  - unfold extra_item. rewrite Hd. cbn [truthy].
    destruct (s =? "") eqn:E; cbn [negb].
    + apply String.eqb_eq in E. subst s. exists [].
      now rewrite app_nil_r.
    + exists [parse_motd s]. now split.
  - unfold extra_item. rewrite Hd. exists []. now rewrite app_nil_r.
  - exists []. rewrite app_nil_r. now destruct v.
Qed.

Lemma extra_loop_leaves items texts :
  Forall2 leaf_text items texts ->
  forall r, exists frags,
    extra_loop r items = Ok (r ++ frags)
    /\ join "" frags = join "" (map parse_motd texts).
Proof.
  induction 1 as [|item text items texts Hleaf _ IH]; intros r.
  - exists []. now rewrite app_nil_r.
  - destruct (extra_item_leaf item text r Hleaf) as (f1 & E1 & J1).
    destruct (IH (r ++ f1)) as (f2 & E2 & J2).
    exists (f1 ++ f2). cbn [extra_loop]. rewrite E1. cbn [rbind].
    rewrite E2, app_assoc. split; [reflexivity|].
    cbn [map]. now rewrite join_empty_app, join_empty_cons, J1, J2.
Qed.

(** X6: for a dict whose text is a str or is missing and whose extra list
    holds strs, dicts with a str text or none, and values that are neither,
    [parse_motd_json] returns the markup of the text followed by the markup
    of each entry's text in order, each parsed on its own from the empty
    format state; any other key of an entry, a nested extra list included,
    is not read. *)
Theorem parse_motd_json_concatenates
  (d : list (string * value)) (text : string)
  (items : list value) (texts : list string) :
  leaf_text (PDict d) text ->
  lookup String.eqb "extra" d = Some (PList items) ->
  Forall2 leaf_text items texts ->
  parse_motd_json (PDict d)
  = Ok (parse_motd text ++ join "" (map parse_motd texts))%string.
Proof.
  intros Hroot Hextra Hitems. unfold parse_motd_json.
  assert (Hr : exists r,
             match lookup String.eqb "text" d with
             | Some text0 =>
                 if truthy text0
                 then rbind (parse_motd_value text0) (fun h => Ok [h])
                 else Ok []
             | None => Ok []
             end = Ok r /\ join "" r = parse_motd text).
  { inversion Hroot as [|d0 s Hd|d0 Hd|v Hs Hv]; subst.
    - rewrite Hd. cbn [truthy].
      destruct (text =? "") eqn:E; cbn [negb].
      + apply String.eqb_eq in E. subst text. now exists [].
      + now exists [parse_motd text].
    - rewrite Hd. now exists [].
    - discriminate. }
  destruct Hr as (r & -> & Jr). cbn [rbind]. rewrite Hextra.
  cbn [iterate rbind].
  destruct (extra_loop_leaves items texts Hitems r) as (frags & -> & Jf).
  cbn [rbind]. now rewrite join_empty_app, Jr, Jf.
Qed.

Lemma parse_motd_json_concatenates_nested :
  parse_motd_json
    (PDict [ ("text", PStr (marker "6Gold"));
             ("extra",
              PList [ PStr " a";
                      PDict [ ("text", PStr (marker "lb"));
                              ("extra", PList [PStr "nested"]) ];
                      PInt 3 ]) ])
  = Ok (parse_motd (marker "6Gold")
        ++ join "" (map parse_motd [" a"; marker "lb"; ""]))%string.
Proof.
  apply (parse_motd_json_concatenates _ _
           [ PStr " a";
             PDict [ ("text", PStr (marker "lb"));
                     ("extra", PList [PStr "nested"]) ];
             PInt 3 ]).
  - now apply leaf_dict.
  - reflexivity.
  - constructor; [apply leaf_str|].
    constructor; [now apply leaf_dict|].
    constructor; [now apply leaf_other | constructor].
Defined.

Lemma parse_motd_value_raises v :
  isinstance_str v = false -> truthy v = true ->
  parse_motd_value v = Raise AttributeError.
Proof.
  intros Hs Ht. destruct v; try discriminate; cbn [parse_motd_value];
    rewrite ?Ht; reflexivity.
Qed.

Lemma parse_motd_value_error v e :
  parse_motd_value v = Raise e -> e = AttributeError.
Proof.
  destruct v; cbn [parse_motd_value]; try discriminate;
    match goal with
    | |- (if ?b then _ else _) = _ -> _ => destruct b; [|discriminate]
    end; congruence.
Qed.

(** The loop over the extra list raises nothing but AttributeError. *)
Lemma extra_item_error r item e :
  extra_item r item = Raise e -> e = AttributeError.
Proof.
  destruct item; cbn [extra_item]; try discriminate.
  match goal with
  | |- (if ?b then _ else _) = _ -> _ => destruct b; [|discriminate]
  end.
  match goal with
  | |- rbind (parse_motd_value ?t) _ = _ -> _ =>
      destruct (parse_motd_value t) as [h|e0] eqn:Ep; cbn [rbind];
        [discriminate|]
  end.
  intros H. injection H as <-. exact (parse_motd_value_error _ _ Ep).
Qed.

(** A dict whose text is truthy and not a str stops the loop, wherever it
    stands in the list. *)
Lemma extra_loop_raises items d' v :
  In (PDict d') items ->
  lookup String.eqb "text" d' = Some v ->
  isinstance_str v = false -> truthy v = true ->
  forall r, extra_loop r items = Raise AttributeError.
Proof.
  intros Hin Hd' Hs Ht.
  induction items as [|item items IH]; intros r; [destruct Hin|].
  cbn [extra_loop].
  destruct (extra_item r item) as [r'|e] eqn:Ei; cbn [rbind].
  - destruct Hin as [->|Hin]; [|now apply IH].
    cbn [extra_item] in Ei. rewrite Hd', Ht in Ei.
    rewrite (parse_motd_value_raises v Hs Ht) in Ei. discriminate.
  - now rewrite (extra_item_error _ _ _ Ei).
Qed.

(** X7: [parse_motd_json] raises on a dict that is not a text component:
    AttributeError when the text, or the text of a dict anywhere in the
    extra list, is a value other than a str that is truthy (a number, true,
    a list, a dict), and TypeError when the text is usable and the extra
    value cannot be iterated (None, a bool, a number). *)
Theorem parse_motd_json_raises (d : list (string * value)) :
  (forall v,
     lookup String.eqb "text" d = Some v ->
     isinstance_str v = false -> truthy v = true ->
     parse_motd_json (PDict d) = Raise AttributeError)
  /\ (forall text extra,
        leaf_text (PDict d) text ->
        lookup String.eqb "extra" d = Some extra ->
        iterate extra = Raise TypeError ->
        parse_motd_json (PDict d) = Raise TypeError)
  /\ (forall text items d' v,
        leaf_text (PDict d) text ->
        lookup String.eqb "extra" d = Some (PList items) ->
        In (PDict d') items ->
        lookup String.eqb "text" d' = Some v ->
        isinstance_str v = false -> truthy v = true ->
        parse_motd_json (PDict d) = Raise AttributeError).
Proof.
  assert (Hroot : forall text, leaf_text (PDict d) text ->
            exists r,
              match lookup String.eqb "text" d with
              | Some text0 =>
                  if truthy text0
                  then rbind (parse_motd_value text0) (fun h => Ok [h])
                  else Ok []
              | None => Ok []
              end = Ok r).
  { intros text H. inversion H as [|d0 s Hd|d0 Hd|v Hs Hv]; subst.
    - rewrite Hd. cbn [truthy parse_motd_value rbind].
      destruct (negb (text =? "")); now eexists.
    - rewrite Hd. now eexists.
    - discriminate. }
  split; [|split].
  - intros v Hd Hs Ht. unfold parse_motd_json. rewrite Hd, Ht.
    now rewrite (parse_motd_value_raises v Hs Ht).
  - intros text extra Hleaf He Hi. unfold parse_motd_json.
    destruct (Hroot text Hleaf) as (r & ->). cbn [rbind].
    now rewrite He, Hi.
  - intros text items d' v Hleaf He Hin Hd' Hs Ht.
    unfold parse_motd_json.
    destruct (Hroot text Hleaf) as (r & ->). cbn [rbind].
    rewrite He. cbn [iterate rbind].
    now rewrite (extra_loop_raises items d' v Hin Hd' Hs Ht r).
Qed.

Lemma parse_motd_json_raises_number :
  parse_motd_json (PDict [("text", PInt 5)]) = Raise AttributeError
  /\ parse_motd_json (PDict [("text", PStr "a"); ("extra", PNone)])
     = Raise TypeError
  /\ parse_motd_json
       (PDict [ ("text", PStr "a");
                ("extra", PList [ PStr "b"; PDict [("text", PStr "c")];
                                  PDict [("text", PInt 5)]; PStr "d" ]) ])
     = Raise AttributeError.
Proof.
  split; [|split].
  - exact (proj1 (parse_motd_json_raises [("text", PInt 5)])
             (PInt 5) eq_refl eq_refl eq_refl).
  - refine (proj1 (proj2 (parse_motd_json_raises
                            [("text", PStr "a"); ("extra", PNone)]))
              "a" PNone _ eq_refl eq_refl).
    now apply leaf_dict.
  - apply (proj2 (proj2 (parse_motd_json_raises
                           [ ("text", PStr "a");
                             ("extra",
                              PList [ PStr "b"; PDict [("text", PStr "c")];
                                      PDict [("text", PInt 5)];
                                      PStr "d" ]) ]))
             "a"
             [ PStr "b"; PDict [("text", PStr "c")];
               PDict [("text", PInt 5)]; PStr "d" ]
             [("text", PInt 5)] (PInt 5)).
    + now apply leaf_dict.
    + reflexivity.
    + cbn [In]. tauto.
    + reflexivity.
    + reflexivity.
    + reflexivity.
Defined.

End ParserExtras.

(** ** The resolver *)
Module ServerExtras.
Import Py PyFacts Runtime Server ServerSpec ServerFacts LookupSpec
       LookupFacts ExtrasSpec.

Lemma not_blocked_existsb port :
  ~ In port blocked_ports -> existsb (Z.eqb port) blocked_ports = false.
Proof.
  intros H. destruct (existsb (Z.eqb port) blocked_ports) eqn:E;
    [|reflexivity].
  apply existsb_exists in E as (p & Hin & Hp).
  apply Z.eqb_eq in Hp. subst p. contradiction.
Qed.

(** With an allowed port, validation is the test of the host. *)
Lemma validate_allowed_port E host port :
  port_allowed port ->
  validate_server_address E host port
  = rbind (is_private_ip E host) (fun private =>
      if private then
        Raise (ValueError
                 "Access to private/internal IP addresses is not allowed")
      else Ok tt).
Proof.
  intros [[H1 H2] Hb]. unfold validate_server_address.
  apply Z.leb_le in H1, H2. rewrite H1, H2. cbn [andb negb].
  now rewrite (not_blocked_existsb _ Hb).
Qed.

Lemma parse_with_port E host port_str port :
  py_int port_str = Some port ->
  parse_server_address E (host ++ ":" ++ port_str)
  = rbind (validate_server_address E host port)
          (fun _ => Ok (host, port)).
Proof.
  intros Hint. unfold parse_server_address.
  change (host ++ ":" ++ port_str)%string
    with (host ++ String ":" port_str)%string.
  rewrite contains_middle.
  rewrite (rsplit1_last _ _ _ (py_int_no_colon _ _ Hint)).
  rewrite Hint. reflexivity.
Qed.

Lemma parse_without_port E ip :
  contains ":" ip = false ->
  parse_server_address E ip
  = rbind (validate_server_address E ip 25565)
          (fun _ => Ok (ip, 25565%Z)).
Proof. intros H. unfold parse_server_address. now rewrite H. Qed.

Lemma default_port_allowed : port_allowed 25565.
Proof.
  split; [lia|]. unfold blocked_ports. cbn [In].
  intros H. repeat (destruct H as [H|H]; [discriminate|]). contradiction.
Qed.

Lemma is_private_ip_resolved E host a :
  resolves_to E host a -> is_private_ip E host = Ok (flagged a).
Proof.
  unfold is_private_ip, flagged.
  intros [H|(m & r & H1 & H2 & H3)].
  - now rewrite H.
  - rewrite H1. cbn [is_ValueError]. rewrite H2. cbn [rbind].
    now rewrite H3.
Qed.

(** X8: when the text after the last colon is not an integer for [int], the
    empty text included, [parse_server_address] raises the invalid-port
    error carrying that text, whatever the host is and before anything is
    resolved. *)
Theorem invalid_port_text_rejected (E : Env) (host port_str : string) :
  contains ":" port_str = false ->
  py_int port_str = None ->
  parse_server_address E (host ++ ":" ++ port_str)
  = Raise (ValueError ("Invalid port: " ++ port_str)).
Proof.
  intros Hc Hint. unfold parse_server_address.
  change (host ++ ":" ++ port_str)%string
    with (host ++ String ":" port_str)%string.
  rewrite contains_middle, (rsplit1_last _ _ _ Hc), Hint. reflexivity.
Qed.

Lemma invalid_port_text_rejected_demo :
  parse_server_address Demo.env "mc.example.org:25565x"
  = Raise (ValueError "Invalid port: 25565x")
  /\ parse_server_address Demo.env "mc.example.org:"
     = Raise (ValueError "Invalid port: ").
Proof.
  split.
  - exact (invalid_port_text_rejected Demo.env "mc.example.org" "25565x"
             eq_refl eq_refl).
  - exact (invalid_port_text_rejected Demo.env "mc.example.org" ""
             eq_refl eq_refl).
Defined.

(** X9: a port that [int] reads but that lies outside 1..65535 (zero, a
    negative number, 65536 and up) is rejected with the range error naming
    the number, whatever the host is and before anything is resolved. *)
Theorem port_out_of_range_rejected
  (E : Env) (host port_str : string) (port : Z) :
  py_int port_str = Some port ->
  ~ (1 <= port <= 65535)%Z ->
  parse_server_address E (host ++ ":" ++ port_str)
  = Raise (ValueError ("Port must be between 1 and 65535, got "
                         ++ str_of_int port)).
Proof.
  intros Hint Hr. rewrite (parse_with_port E host port_str port Hint).
  unfold validate_server_address.
  destruct ((1 <=? port) && (port <=? 65535))%Z eqn:E1; [|reflexivity].
  apply andb_prop in E1 as [H1 H2]. apply Z.leb_le in H1, H2. lia.
Qed.

Lemma port_out_of_range_rejected_demo :
  parse_server_address Demo.env "mc.example.org:0"
  = Raise (ValueError "Port must be between 1 and 65535, got 0")
  /\ parse_server_address Demo.env "mc.example.org:-1"
     = Raise (ValueError "Port must be between 1 and 65535, got -1")
  /\ parse_server_address Demo.env "mc.example.org:65536"
     = Raise (ValueError "Port must be between 1 and 65535, got 65536").
Proof.
  split; [|split].
  - refine (port_out_of_range_rejected Demo.env "mc.example.org" "0" 0
              eq_refl _). lia.
  - refine (port_out_of_range_rejected Demo.env "mc.example.org" "-1" (-1)
              eq_refl _). lia.
  - refine (port_out_of_range_rejected Demo.env "mc.example.org" "65536"
              65536 eq_refl _). lia.
Defined.

(** The message of the private-address error. *)
Lemma private_validate E host port a :
  port_allowed port -> resolves_to E host a -> flagged a = true ->
  validate_server_address E host port
  = Raise (ValueError
             "Access to private/internal IP addresses is not allowed").
Proof.
  intros Hp Hres Hf. rewrite (validate_allowed_port E host port Hp).
  now rewrite (is_private_ip_resolved E host a Hres), Hf.
Qed.

(** X10: with an allowed port, a host whose address (the host itself read as
    a literal, or what the name service answers) is private, loopback,
    link-local, reserved or multicast is rejected with the private-address
    error, with the default port and with a port given. *)
Theorem private_address_rejected
  (E : Env) (host : string) (port : Z) (a : IPAddress) :
  port_allowed port ->
  resolves_to E host a ->
  flagged a = true ->
  validate_server_address E host port
  = Raise (ValueError
             "Access to private/internal IP addresses is not allowed")
  /\ (contains ":" host = false ->
      parse_server_address E host
      = Raise (ValueError
                 "Access to private/internal IP addresses is not allowed"))
  /\ (forall port_str,
        py_int port_str = Some port ->
        parse_server_address E (host ++ ":" ++ port_str)
        = Raise (ValueError
                   "Access to private/internal IP addresses is not allowed")).
Proof.
  intros Hp Hres Hf.
  split; [now apply (private_validate E host port a)|].
  split.
  - intros Hc. rewrite (parse_without_port E host Hc).
    now rewrite (private_validate E host 25565 a default_port_allowed Hres Hf).
  - intros port_str Hint. rewrite (parse_with_port E host port_str port Hint).
    now rewrite (private_validate E host port a Hp Hres Hf).
Qed.

Lemma private_address_rejected_demo :
  parse_server_address Demo.env "127.0.0.1"
  = Raise (ValueError
             "Access to private/internal IP addresses is not allowed")
  /\ parse_server_address Demo.env "intranet.example.org:25570"
     = Raise (ValueError
                "Access to private/internal IP addresses is not allowed").
Proof.
  assert (Hp : port_allowed 25570).
  { split; [lia|]. unfold blocked_ports. cbn [In].
    intros H. repeat (destruct H as [H|H]; [discriminate|]). contradiction. }
  split.
  - refine (proj1 (proj2 (private_address_rejected Demo.env "127.0.0.1"
                            25565 Demo.loopback_ip default_port_allowed
                            _ eq_refl)) eq_refl).
    now left.
  - refine (proj2 (proj2 (private_address_rejected Demo.env
                            "intranet.example.org" 25570 Demo.private_ip
                            Hp _ eq_refl)) "25570" eq_refl).
    right. exists "does not appear to be an IPv4 or IPv6 address", "10.0.0.5".
    repeat split; reflexivity.
Defined.

(** X11: with an allowed port, a host that is no address literal and for
    which the name service fails ([gaierror] or [herror]) is rejected with
    the error that names the host. *)
Theorem unresolvable_host_rejected
  (E : Env) (host m : string) (port : Z) :
  port_allowed port ->
  ip_address E host = Raise (ValueError m) ->
  (gethostbyname E host = Raise socket_gaierror
   \/ gethostbyname E host = Raise socket_herror) ->
  validate_server_address E host port
  = Raise (ValueError ("Cannot resolve hostname: " ++ host)).
Proof.
  intros Hp Hip Hdns. rewrite (validate_allowed_port E host port Hp).
  unfold is_private_ip. rewrite Hip. cbn [is_ValueError].
  now destruct Hdns as [-> | ->].
Qed.

Lemma unresolvable_host_rejected_demo :
  validate_server_address Demo.env "nohost.example.org" 25565
  = Raise (ValueError "Cannot resolve hostname: nohost.example.org").
Proof.
  refine (unresolvable_host_rejected Demo.env "nohost.example.org"
            "does not appear to be an IPv4 or IPv6 address" 25565
            default_port_allowed eq_refl _).
  now left.
Defined.

(** X12: an address without a colon is looked up on port 25565: it is
    accepted, as itself with that port, exactly when its address is found
    and carries none of the five flags, and it is never accepted with
    another host or port. *)
Theorem default_port_is_25565 (E : Env) (ip : string) :
  contains ":" ip = false ->
  (parse_server_address E ip = Ok (ip, 25565%Z)
   <-> is_private_ip E ip = Ok false)
  /\ (forall host port,
        parse_server_address E ip = Ok (host, port) ->
        host = ip /\ port = 25565%Z).
Proof.
  intros Hc. rewrite (parse_without_port E ip Hc).
  rewrite (validate_allowed_port E ip 25565 default_port_allowed).
  destruct (is_private_ip E ip) as [[|]|e]; cbn [rbind].
  - split; [split; discriminate | discriminate].
  - split; [split; reflexivity|].
    intros host port H. now injection H as <- <-.
  - split; [split; discriminate | discriminate].
Qed.

Lemma default_port_is_25565_demo :
  parse_server_address Demo.env "mc.example.org"
  = Ok ("mc.example.org", 25565%Z).
Proof.
  exact (proj2 (proj1 (default_port_is_25565 Demo.env "mc.example.org"
                         eq_refl)) eq_refl).
Defined.

End ServerExtras.

(** ** The lookup and the handler *)
Module LookupExtras.
Import Py PyFacts Runtime Server ServerSpec ServerFacts LookupSpec
       LookupFacts Cachetools CacheSpec CacheFacts ExtrasSpec.

Lemma fetch_server_status_world E ip w :
  snd (fetch_server_status E ip w) = w
  \/ exists host port,
       parse_server_address E ip = Ok (host, port)
       /\ snd (fetch_server_status E ip w) = after_query E host port w.
Proof.
  unfold fetch_server_status, try_except, bind, lift, query_status, ret,
    after_query.
  destruct (parse_server_address E ip) as [[host port]|e].
  - right. exists host, port. split; [reflexivity|].
    destruct (server_status E host port) as [st|e]; [reflexivity|].
    cbn beta iota. now destruct (is_OSError e || is_ValueError e).
  - left. cbn beta iota. now destruct (is_OSError e || is_ValueError e).
Qed.

Lemma get_server_info_world E ip w :
  snd (get_server_info E ip w) = snd (fetch_server_status E ip w).
Proof.
  unfold get_server_info, bind, lift, ret.
  destruct (fetch_server_status E ip w) as [[[st|]|e] w'];
    try reflexivity.
  now destruct (description_text E (description st)).
Qed.

Lemma offline_is_info ip : is_info (offline_info ip).
Proof.
  exists false, "Server Offline", ip, 0%Z, 0%Z, "Unknown", PNone.
  split; [reflexivity|]. split; [reflexivity | now left].
Qed.

Lemma get_server_info_is_info E ip w info :
  fst (get_server_info E ip w) = Ok info -> is_info info.
Proof.
  unfold get_server_info, bind, lift, ret.
  destruct (fetch_server_status E ip w) as [[[st|]|e0] w'];
    [| |discriminate].
  - destruct (description_text E (description st)) as [t|e1];
      [|discriminate].
    cbn [fst]. intros H. injection H as <-.
    do 7 eexists. split; [reflexivity|]. split.
    + match goal with
      | |- context [if ?b then "No MOTD" else ?m] =>
          destruct b eqn:Em; [reflexivity | exact Em]
      end.
    + destruct (icon st) as [i|]; [right; now exists i | now left].
  - cbn [fst]. intros H. injection H as <-. apply offline_is_info.
Qed.

Lemma get_server_info_keeps_cache E ip w :
  server_cache (snd (get_server_info E ip w)) = server_cache w
  /\ (clock w <= clock (snd (get_server_info E ip w)))%Z.
Proof.
  rewrite get_server_info_world.
  destruct (fetch_server_status_world E ip w)
    as [->|(host & port & _ & ->)].
  - split; [reflexivity | lia].
  - cbn [after_query server_cache clock]. split; [reflexivity | lia].
Qed.

(** What the cached lookup does on a miss, whatever the fetch gives. *)
Lemma get_cached_miss_any ip fetch_func w :
  fst (Cache.get (server_cache w) ip (clock w)) = PNone ->
  Cache.get_cached_server_info ip fetch_func w
  = match fetch_func ip (before_fetch ip w) with
    | (Ok info, w1) => (Ok info, after_store ip info w1)
    | (Raise e, w1) => (Raise e, w1)
    end.
Proof.
  intros Hmiss.
  unfold Cache.get_cached_server_info, bind, Cache.server_cache_get,
    before_fetch, after_get.
  destruct (Cache.get (server_cache w) ip (clock w)) as [v c] eqn:Eg.
  cbn [fst] in Hmiss. subst v. cbn beta iota.
  unfold emit. cbn [server_cache clock trace snd].
  rewrite <- app_assoc.
  now destruct (fetch_func ip _) as [[info|e] w1].
Qed.

Lemma value_is_none_dec (v : value) : v = PNone \/ v <> PNone.
Proof. destruct v; (now left) || (right; discriminate). Qed.

Lemma lookup_trace E ip w :
  exists rest,
    trace (snd (Cache.get_cached_server_info ip (get_server_info E) w))
    = trace w ++ CacheGet ip :: rest
    /\ forall h p,
         In (StatusQuery h p) rest -> parse_server_address E ip = Ok (h, p).
Proof.
  destruct (value_is_none_dec (fst (Cache.get (server_cache w) ip (clock w))))
    as [Hmiss|Hhit].
  2:{ exists []. rewrite (get_cached_hit ip _ w Hhit).
      split; [reflexivity | intros h p []]. }
  rewrite (get_cached_miss_any ip _ w Hmiss).
  pose proof (get_server_info_world E ip (before_fetch ip w)) as Hw.
  destruct (get_server_info E ip (before_fetch ip w)) as [r w1].
  cbn [snd] in Hw.
  destruct (fetch_server_status_world E ip (before_fetch ip w))
    as [Hf|(host & port & Hp & Hf)]; rewrite Hf in Hw; subst w1.
  - destruct r as [info|e]; cbn [snd after_store before_fetch trace].
    + exists [FetchCall ip; CacheSet ip info].
      rewrite <- !app_assoc. split; [reflexivity|].
      intros h p [H|[H|[]]]; discriminate.
    + exists [FetchCall ip]. split; [reflexivity|].
      intros h p [H|[]]; discriminate.
  - destruct r as [info|e];
      cbn [snd after_store after_query before_fetch trace].
    + exists [FetchCall ip; StatusQuery host port; CacheSet ip info].
      rewrite <- !app_assoc. split; [reflexivity|].
      intros h p [H|[H|[H|[]]]]; try discriminate.
      now injection H as <- <-.
    + exists [FetchCall ip; StatusQuery host port].
      rewrite <- !app_assoc. split; [reflexivity|].
      intros h p [H|[H|[]]]; try discriminate.
      now injection H as <- <-.
Qed.

(** X13: every status query a request adds to the trace is made for the
    host and port the resolver accepted for the requested address: the port
    lies in 1..65535 and off the denylist, and [is_private_ip] returned
    False for the host when the address was validated.  The address the
    status client connects to is found by the client itself, later, and is
    no part of this. *)
Theorem status_query_guarded
  (E : Env) (ip : string) (w : World) (host : string) (port : Z) :
  In (StatusQuery host port) (trace (snd (Main.get_server_embed E ip w))) ->
  In (StatusQuery host port) (trace w)
  \/ (parse_server_address E ip = Ok (host, port)
      /\ port_allowed port
      /\ is_private_ip E host = Ok false).
Proof.
  rewrite get_server_embed_world.
  destruct (lookup_trace E ip w) as (rest & -> & Hrest).
  intros Hin. apply in_app_or in Hin as [Hin|[Hin|Hin]].
  - now left.
  - discriminate.
  - right. pose proof (Hrest _ _ Hin) as Hp.
    destruct (parse_server_address_ok E ip host port Hp) as (Hr & Hb & Hpriv).
    now repeat split.
Qed.

Lemma status_query_guarded_demo :
  In (StatusQuery "mc.example.org" 25565) (trace Demo.start)
  \/ (parse_server_address Demo.env "mc.example.org"
      = Ok ("mc.example.org", 25565%Z)
      /\ port_allowed 25565
      /\ is_private_ip Demo.env "mc.example.org" = Ok false).
Proof.
  apply (status_query_guarded Demo.env "mc.example.org" Demo.start).
  vm_compute. tauto.
Defined.

(** X14: whenever [get_server_info] returns, it returns a dict with the
    seven keys online, motd, server_name, players_online, players_max,
    version and favicon, whose motd is a str that is not empty and whose
    favicon is a str or None; it leaves the cache as it is and does not set
    the clock back. *)
Theorem get_server_info_returns_info
  (E : Env) (ip : string) (w : World) (info : value) (w' : World) :
  get_server_info E ip w = (Ok info, w') ->
  is_info info
  /\ server_cache w' = server_cache w
  /\ (clock w <= clock w')%Z.
Proof.
  intros H.
  split; [apply (get_server_info_is_info E ip w); now rewrite H|].
  pose proof (get_server_info_keeps_cache E ip w) as Hw.
  rewrite H in Hw. exact Hw.
Qed.

Lemma get_server_info_returns_info_demo :
  is_info
    (PDict [ ("online", PBool true); ("motd", PStr "A Minecraft Server");
             ("server_name", PStr "1.20.4"); ("players_online", PInt 3);
             ("players_max", PInt 20); ("version", PStr "1.20.4");
             ("favicon", PNone) ]).
Proof.
  exact (proj1 (get_server_info_returns_info Demo.env "mc.example.org"
                  Demo.start _
                  (after_query Demo.env "mc.example.org" 25565 Demo.start)
                  eq_refl)).
Defined.

(** X15: when the status query raises an exception that is neither an
    [OSError] nor a [ValueError], [get_server_info] raises it; on a cache
    miss the cached lookup raises it too and stores nothing, and the handler
    answers with status 500 and the fixed detail, without the message of the
    exception. *)
Theorem unexpected_fetch_error
  (E : Env) (ip host : string) (port : Z) (e : exn) (w : World) :
  parse_server_address E ip = Ok (host, port) ->
  server_status E host port = Raise e ->
  swallowed e = false ->
  fst (Cache.get (server_cache w) ip (clock w)) = PNone ->
  get_server_info E ip w = (Raise e, after_query E host port w)
  /\ Cache.get_cached_server_info ip (get_server_info E) w
     = (Raise e, after_query E host port (before_fetch ip w))
  /\ Main.get_server_embed E ip w
     = (Ok (Main.HTTPException 500 "Internal server error"),
        after_query E host port (before_fetch ip w))
  /\ trace (after_query E host port (before_fetch ip w))
     = trace w ++ [CacheGet ip; FetchCall ip; StatusQuery host port]
  /\ server_cache (after_query E host port (before_fetch ip w))
     = snd (Cache.get (server_cache w) ip (clock w)).
Proof.
  intros Hp Hq Hs Hmiss.
  assert (Hinfo : forall w0, get_server_info E ip w0
                             = (Raise e, after_query E host port w0)).
  { intros w0.
    assert (Hf : fetch_server_status E ip w0
                 = (Raise e, after_query E host port w0)).
    { unfold fetch_server_status, try_except, bind, lift, query_status.
      rewrite Hp. cbn beta iota. rewrite Hq. cbn beta iota.
      unfold swallowed in Hs. now rewrite Hs. }
    unfold get_server_info, bind. now rewrite Hf. }
  assert (Hc : Cache.get_cached_server_info ip (get_server_info E) w
               = (Raise e, after_query E host port (before_fetch ip w))).
  { rewrite (get_cached_miss_any ip _ w Hmiss). now rewrite Hinfo. }
  split; [apply Hinfo|]. split; [exact Hc|]. split.
  - unfold Main.get_server_embed, try_except, Main.embed_body, bind.
    rewrite Hc. cbn beta iota.
    unfold swallowed in Hs. apply orb_false_elim in Hs as [_ Hv].
    now destruct e.
  - split.
    + cbn [after_query before_fetch trace]. now rewrite <- !app_assoc.
    + reflexivity.
Qed.

Lemma unexpected_fetch_error_demo :
  Main.get_server_embed broken_env "mc.example.org" Demo.start
  = (Ok (Main.HTTPException 500 "Internal server error"),
     after_query broken_env "mc.example.org" 25565
       (before_fetch "mc.example.org" Demo.start)).
Proof.
  exact (proj1 (proj2 (proj2
           (unexpected_fetch_error broken_env "mc.example.org"
              "mc.example.org" 25565 KeyError Demo.start
              eq_refl eq_refl eq_refl eq_refl)))).
Defined.

(** *** What the cache serves *)

Lemma cache_get_after_set (c : Cache.ThreadSafeTTLCache) key v now t :
  (t < now + ttl c)%Z ->
  fst (Cache.get (Cache.set c key v now) key t) = v.
Proof.
  intros Ht. unfold Cache.get, Cache.set.
  pose proof (get_after_set key v now t c Ht) as H.
  destruct (get key t (set key v now c)) as [r c'].
  cbn [fst] in H. now subst r.
Qed.

Lemma cache_get_ttl (c : Cache.ThreadSafeTTLCache) key now :
  ttl (snd (Cache.get c key now)) = ttl c.
Proof. rewrite cache_get_snd. apply get_params. Qed.

(** X16: once a lookup has missed the cache and fetched an info dict, a
    lookup of the same address made on that cache before the time to live
    has passed returns the dict from the cache: it reads the cache and does
    nothing else, whatever the fetch function would do. *)
Theorem lookup_served_from_cache
  (E : Env) (ip : string) (w : World) (info : value) (w' : World)
  (fetch_func : string -> M value) (w2 : World) :
  fst (Cache.get (server_cache w) ip (clock w)) = PNone ->
  Cache.get_cached_server_info ip (get_server_info E) w = (Ok info, w') ->
  server_cache w2 = server_cache w' ->
  (clock w2 < clock w' + ttl (server_cache w))%Z ->
  Cache.get_cached_server_info ip fetch_func w2
  = (Ok info, after_get ip w2)
  /\ trace (after_get ip w2) = trace w2 ++ [CacheGet ip].
Proof.
  intros Hmiss Hfirst Hcache Hclock.
  rewrite (get_cached_miss_any ip _ w Hmiss) in Hfirst.
  destruct (get_server_info E ip (before_fetch ip w)) as [[info0|e] w1]
    eqn:Eg; [|discriminate].
  injection Hfirst as <- <-.
  assert (Hinfo : is_info info0).
  { apply (get_server_info_is_info E ip (before_fetch ip w)).
    now rewrite Eg. }
  pose proof (get_server_info_keeps_cache E ip (before_fetch ip w))
    as [Hc1 _].
  rewrite Eg in Hc1. cbn [snd] in Hc1.
  assert (Hget : fst (Cache.get (server_cache w2) ip (clock w2)) = info0).
  { rewrite Hcache. cbn [after_store server_cache clock] in *.
    apply cache_get_after_set.
    rewrite Hc1. cbn [before_fetch after_get server_cache].
    now rewrite cache_get_ttl. }
  split; [|reflexivity].
  rewrite get_cached_hit; rewrite Hget; [reflexivity|].
  destruct Hinfo as (o & m & n & po & pm & v & f & -> & _). discriminate.
Qed.

Lemma lookup_served_from_cache_demo :
  Cache.get_cached_server_info "mc.example.org" (fun _ => raise KeyError)
    (after_store "mc.example.org"
       (fst_info Demo.env "mc.example.org" Demo.start)
       (after_query Demo.env "mc.example.org" 25565
          (before_fetch "mc.example.org" Demo.start)))
  = (Ok (fst_info Demo.env "mc.example.org" Demo.start),
     after_get "mc.example.org"
       (after_store "mc.example.org"
          (fst_info Demo.env "mc.example.org" Demo.start)
          (after_query Demo.env "mc.example.org" 25565
             (before_fetch "mc.example.org" Demo.start)))).
Proof.
  refine (proj1 (lookup_served_from_cache Demo.env "mc.example.org"
                   Demo.start _ _ (fun _ => raise KeyError) _
                   eq_refl eq_refl eq_refl _)).
  vm_compute. reflexivity.
Defined.

(** X17: a fetch result of None is stored but never served: the lookup
    returns it, and the next cache get for the address reports a miss again,
    at any time, so the next lookup fetches once more. *)
Theorem none_result_not_cached
  (ip : string) (fetch_func : string -> M value) (w w1 : World) :
  fst (Cache.get (server_cache w) ip (clock w)) = PNone ->
  fetch_func ip (before_fetch ip w) = (Ok PNone, w1) ->
  Cache.get_cached_server_info ip fetch_func w
  = (Ok PNone, after_store ip PNone w1)
  /\ (forall w2,
        server_cache w2 = server_cache (after_store ip PNone w1) ->
        fst (Cache.get (server_cache w2) ip (clock w2)) = PNone).
Proof.
  intros Hmiss Hf. split.
  - rewrite (get_cached_miss_any ip _ w Hmiss). now rewrite Hf.
  - intros w2 ->. cbn [after_store server_cache].
    unfold Cache.get, Cache.set.
    destruct (set_entries ip PNone (clock w1) (server_cache w1))
      as (kept & E & Hn & _).
    unfold get. rewrite E.
    rewrite (find_entry_last ip kept
               (mk_entry ip PNone (clock w1 + ttl (server_cache w1)))
               Hn eq_refl).
    now destruct (expired (clock w2) _).
Qed.

Lemma none_result_not_cached_demo :
  fst (Cache.get
         (server_cache (after_store "mc.example.org" PNone
                          (before_fetch "mc.example.org" Demo.start)))
         "mc.example.org" 5)
  = PNone.
Proof.
  exact (proj2 (none_result_not_cached "mc.example.org"
                  (fun _ => ret PNone) Demo.start
                  (before_fetch "mc.example.org" Demo.start)
                  eq_refl eq_refl)
           (mk_world
              (server_cache (after_store "mc.example.org" PNone
                               (before_fetch "mc.example.org" Demo.start)))
              5 [])
           eq_refl).
Defined.

(** X18: an address the resolver rejects with a [ValueError] or an
    [OSError] is answered, on a cache miss, with the offline page: the
    offline dict is stored under the raw address without any status query,
    and a request for the same address on that cache within the time to live
    gets the offline page from the cache. *)
Theorem rejected_address_cached_offline
  (E : Env) (ip : string) (e : exn) (w : World) :
  parse_server_address E ip = Raise e ->
  swallowed e = true ->
  fst (Cache.get (server_cache w) ip (clock w)) = PNone ->
  Main.get_server_embed E ip w
  = (Ok (Main.HTMLResponse (offline_page E ip)),
     after_store ip (offline_info ip) (before_fetch ip w))
  /\ trace (after_store ip (offline_info ip) (before_fetch ip w))
     = trace w ++ [CacheGet ip; FetchCall ip;
                   CacheSet ip (offline_info ip)]
  /\ (forall w2,
        server_cache w2
        = server_cache (after_store ip (offline_info ip)
                          (before_fetch ip w)) ->
        (clock w2 < clock w + ttl (server_cache w))%Z ->
        Main.get_server_embed E ip w2
        = (Ok (Main.HTMLResponse (offline_page E ip)), after_get ip w2)).
Proof.
  intros Hp Hs Hmiss.
  assert (Hc : Cache.get_cached_server_info ip (get_server_info E) w
               = (Ok (offline_info ip),
                  after_store ip (offline_info ip) (before_fetch ip w))).
  { rewrite (get_cached_miss_any ip _ w Hmiss).
    now rewrite (get_server_info_rejected E ip e _ Hp Hs). }
  split; [now apply embed_body_offline|]. split.
  - cbn [after_store before_fetch trace]. now rewrite <- !app_assoc.
  - intros w2 Hcache Hclock. apply embed_body_offline.
    assert (Hget : fst (Cache.get (server_cache w2) ip (clock w2))
                   = offline_info ip).
    { rewrite Hcache. cbn [after_store before_fetch server_cache clock].
      apply cache_get_after_set.
      cbn [after_get server_cache]. now rewrite cache_get_ttl. }
    rewrite get_cached_hit; rewrite Hget; [reflexivity | discriminate].
Qed.

Lemma rejected_address_cached_offline_demo :
  Main.get_server_embed Demo.env "127.0.0.1" Demo.start
  = (Ok (Main.HTMLResponse (offline_page Demo.env "127.0.0.1")),
     after_store "127.0.0.1" (offline_info "127.0.0.1")
       (before_fetch "127.0.0.1" Demo.start)).
Proof.
  exact (proj1 (rejected_address_cached_offline Demo.env "127.0.0.1"
                  (ValueError
                     "Access to private/internal IP addresses is not allowed")
                  Demo.start eq_refl eq_refl eq_refl)).
Defined.

End LookupExtras.

(** ** The page generator *)
Module HtmlExtras.
Import Py PyFacts Runtime MotdParser MotdParserSpec HtmlGenerator LookupSpec
       ExtrasSpec ParserExtras.

Lemma prefix_app_left a b f :
  String.prefix (a ++ b) f = true -> String.prefix a f = true.
Proof.
  revert f. induction a as [|c a IH]; intros f.
  - now destruct f.
  - destruct f as [|d f]; cbn [append prefix]; [discriminate|].
    destruct (ascii_dec c d); [apply IH | discriminate].
Qed.

Lemma allowed_type_is_data f :
  existsb (fun t => startswith t f) allowed_types = true ->
  startswith "data:" f = true.
Proof.
  unfold allowed_types, startswith. cbn [existsb]. intros H.
  repeat (apply orb_prop in H as [H|H];
          [exact (prefix_app_left "data:" _ f H)|]).
  discriminate.
Qed.

(** X20: [validate_favicon] accepts a text exactly when it starts with one
    of the five image prefixes, holds the base64 marker somewhere and has at
    most 150000 characters; nothing after the prefix is examined, and a
    longer text is rejected however well-formed. *)
Theorem validate_favicon_accepts_exactly (favicon : string) :
  validate_favicon favicon
  = existsb (fun t => startswith t favicon) allowed_types
    && has_substring "base64," favicon
    && (Z.of_nat (String.length favicon) <=? 150000)%Z
  /\ ((150000 < Z.of_nat (String.length favicon))%Z ->
      validate_favicon favicon = false).
Proof.
  assert (Heq : validate_favicon favicon
                = existsb (fun t => startswith t favicon) allowed_types
                  && has_substring "base64," favicon
                  && (Z.of_nat (String.length favicon) <=? 150000)%Z).
  { unfold validate_favicon. fold allowed_types.
    destruct (favicon =? "") eqn:Ee.
    { apply String.eqb_eq in Ee. now subst favicon. }
    destruct (existsb (fun t => startswith t favicon) allowed_types) eqn:Ea.
    - rewrite (allowed_type_is_data favicon Ea). cbn [negb andb].
      destruct (has_substring "base64," favicon); cbn [negb andb];
        [|reflexivity].
      rewrite Z.ltb_antisym.
      now destruct (Z.of_nat (String.length favicon) <=? 150000)%Z.
    - cbn [negb andb]. now destruct (startswith "data:" favicon). }
  split; [exact Heq|].
  intros Hlen. rewrite Heq. apply Z.leb_gt in Hlen. rewrite Hlen.
  apply andb_false_r.
Qed.

Lemma validate_favicon_accepts_exactly_long :
  validate_favicon ("data:image/png;base64," ++ filler "A" (Z.to_nat 150000)) = false.
Proof.
  apply (proj2 (validate_favicon_accepts_exactly
                  ("data:image/png;base64," ++ filler "A" (Z.to_nat 150000)))).
  vm_compute. reflexivity.
Defined.


Lemma contains_replace_gone c new s :
  contains c new = false -> contains c (replace c new s) = false.
Proof.
  intros Hn. induction s as [|d s IH]; [reflexivity|].
  cbn [replace]. destruct (Ascii.eqb d c) eqn:E.
  - now rewrite contains_app, Hn, IH.
  - cbn [contains]. now rewrite E, IH.
Qed.

Lemma contains_replace_keep c d new s :
  contains c new = false -> contains c s = false ->
  contains c (replace d new s) = false.
Proof.
  intros Hn. induction s as [|x s IH]; [reflexivity|].
  cbn [contains replace]. intros H. apply orb_false_elim in H as [Hx Hs].
  destruct (Ascii.eqb x d).
  - now rewrite contains_app, Hn, (IH Hs).
  - cbn [contains]. now rewrite Hx, (IH Hs).
Qed.

(** X22: the server name [generate_embed_html] puts in the page holds no
    less-than and no greater-than sign, whatever the address text was, so
    the name cannot open or close an element of the page. *)
Theorem embed_name_has_no_tags
  (template : string -> string -> string -> string -> string)
  (server_name motd_html : string) (favicon : value) (base_url page : string) :
  generate_embed_html template server_name motd_html favicon base_url
  = Ok page ->
  exists name icon,
    page = template name base_url icon (page_body motd_html)
    /\ name = safe_name server_name
    /\ contains "<" name = false
    /\ contains ">" name = false.
Proof.
  intros H.
  assert (Hlt : contains "<" (safe_name server_name) = false).
  { unfold safe_name. apply contains_replace_keep; [reflexivity|].
    now apply contains_replace_gone. }
  assert (Hgt : contains ">" (safe_name server_name) = false).
  { unfold safe_name. now apply contains_replace_gone. }
  unfold generate_embed_html in H.
  match type of H with
  | rbind ?x _ = _ => destruct x as [icon|e]
  end; cbn [rbind] in H; [|discriminate].
  injection H as <-. exists (safe_name server_name), icon.
  now repeat split.
Qed.

Lemma embed_name_has_no_tags_demo :
  exists name icon,
    template Demo.env (safe_name "<b>a&b</b>") "/static"
      (fallback_icon "/static") (page_body "")
    = template Demo.env name "/static" icon (page_body "")
    /\ name = safe_name "<b>a&b</b>"
    /\ contains "<" name = false
    /\ contains ">" name = false.
Proof.
  exact (embed_name_has_no_tags (template Demo.env) "<b>a&b</b>" "" PNone
           "/static" _ eq_refl).
Defined.

End HtmlExtras.
